(** * Perspec: the four-point perspective transform of
      [cbits/perspectivetransform.c]

    The C code works on IEEE-754 binary64 values.  They are modelled by the
    Standard Library's [spec_float] at precision 53 and maximal exponent
    1024, whose operations round to nearest, ties to even, one operation at
    a time (no fused multiply-add, no extended precision).

    Arrays handed over by pointer ([A], [b], [x]) live in a store of
    double-sized cells addressed by natural numbers, so that a caller may
    pass overlapping buffers; the solver's own [aug] buffer is a local and
    is kept as a separate value. *)

From Stdlib Require Import ZArith List Bool Lia PeanoNat.
From Stdlib Require Import Floats.SpecFloat.
Import ListNotations.

(** ** Binary64 arithmetic *)

Module Double.

Definition prec : Z := 53.
Definition emax : Z := 1024.

Definition double : Type := spec_float.

Definition add : double -> double -> double := SFadd prec emax.
Definition sub : double -> double -> double := SFsub prec emax.
Definition mul : double -> double -> double := SFmul prec emax.
Definition div : double -> double -> double := SFdiv prec emax.
Definition neg : double -> double := SFopp.
Definition fabs : double -> double := SFabs.

(** C's [a < b] and [a > b]: false as soon as one side is NaN. *)
Definition lt (a b : double) : bool := SFltb a b.
Definition gt (a b : double) : bool := SFltb b a.
Definition le (a b : double) : bool := SFleb a b.

Definition isnan (a : double) : bool :=
  match a with S754_nan => true | _ => false end.

Definition isinf (a : double) : bool :=
  match a with S754_infinity _ => true | _ => false end.

Definition is_finite (a : double) : bool :=
  match a with
  | S754_zero _ | S754_finite _ _ _ => true
  | _ => false
  end.


(** The double nearest to an integer. *)
Definition of_Z (z : Z) : double := binary_normalize prec emax z 0 false.

Definition zero : double := S754_zero false.
Definition one : double := Eval vm_compute in of_Z 1.
Definition two : double := Eval vm_compute in of_Z 2.
Definition three : double := Eval vm_compute in of_Z 3.

(** The literal [1e-10]: the double nearest to 10^-10, which is the
    correctly rounded quotient of the exact doubles 1 and 10^10. *)
Definition epsilon : double :=
  Eval vm_compute in div (of_Z 1) (of_Z (10 ^ 10)).

(** The literal [1e6], exactly representable. *)
Definition bound_1e6 : double := Eval vm_compute in of_Z (10 ^ 6).

End Double.

Import Double.

(** ** Memory *)

(** A store of double-sized cells; a pointer to [double] is a cell index. *)
Definition heap : Type := nat -> double.

Definition store (h : heap) (a : nat) (v : double) : heap :=
  fun a' => if Nat.eqb a' a then v else h a'.

(** The solver's local [double aug[8][10]]. *)
Definition matrix : Type := nat -> nat -> double.

Definition mset (m : matrix) (i j : nat) (v : double) : matrix :=
  fun i' j' => if Nat.eqb i' i && Nat.eqb j' j then v else m i' j'.

(** [for (k = lo; k < lo + cnt; k++) s = body k s;] *)
Fixpoint for_loop {St : Type} (cnt k : nat) (body : nat -> St -> St) (s : St) : St :=
  match cnt with
  | O => s
  | S c => for_loop c (S k) body (body k s)
  end.

(** ** The linear system solver *)

Module Solver.

Definition n : nat := 8.

(** The three [return 0] sites of [solve_linear_system], named after the
    spec's error taxonomy. *)
Inductive solver_error : Type :=
| SingularMatrix
| ZeroPivot
| InvalidSolution.

(** [A[i][j]] and [b[i]] behind the pointers [pA] and [pb]. *)
Definition A_cell (pA i j : nat) : nat := pA + 8 * i + j.
Definition v_cell (p i : nat) : nat := p + i.

(** Lines 29-34: the augmented matrix [A|b].  Column 9 of the C buffer is
    never written nor read; every cell that is read is written here
    first, so the initial contents of the buffer do not matter. *)
Definition init_aug (h : heap) (pA pb : nat) : matrix :=
  for_loop n 0
    (fun i aug =>
       let aug := for_loop n 0 (fun j aug => mset aug i j (h (A_cell pA i j))) aug in
       mset aug i n (h (v_cell pb i)))
    (fun _ _ => zero).

(** Lines 39-47: the pivot search in column [i], from row [i] down. *)
Definition find_pivot (i : nat) (aug : matrix) : nat * double :=
  for_loop (n - (i + 1)) (i + 1)
    (fun k '(max_row, max_val) =>
       if gt (fabs (aug k i)) max_val
       then (k, fabs (aug k i))
       else (max_row, max_val))
    (i, fabs (aug i i)).

(** Lines 57-61: exchange rows [i] and [max_row], columns 0 to [n]. *)
Definition swap_rows (i max_row : nat) (aug : matrix) : matrix :=
  for_loop (n + 1) 0
    (fun j aug =>
       let temp := aug i j in
       let aug := mset aug i j (aug max_row j) in
       mset aug max_row j temp)
    aug.

(** Lines 65-70: subtract a multiple of row [i] from every row below. *)
Definition eliminate (i : nat) (aug : matrix) : matrix :=
  for_loop (n - (i + 1)) (i + 1)
    (fun j aug =>
       let factor := div (aug j i) (aug i i) in
       for_loop (n + 1 - i) i
         (fun k aug => mset aug j k (sub (aug j k) (mul factor (aug i k))))
         aug)
    aug.

(** One round of the loop of lines 37-71. *)
Definition pivot_step (i : nat) (aug : matrix) : option matrix :=
  let '(max_row, max_val) := find_pivot i aug in
  if lt max_val epsilon then None
  else
    let aug := if Nat.eqb max_row i then aug else swap_rows i max_row aug in
    Some (eliminate i aug).

(** Rounds [i], [i+1], ..., [i + cnt - 1] of the elimination. *)
Fixpoint forward_elim (cnt i : nat) (aug : matrix) : option matrix :=
  match cnt with
  | O => Some aug
  | S c =>
      match pivot_step i aug with
      | None => None
      | Some aug' => forward_elim c (S i) aug'
      end
  end.

(** Lines 80-84: [x[i]] is computed in place, behind the pointer [px]. *)
Definition solve_row (i : nat) (aug : matrix) (px : nat) (h : heap) : heap :=
  let h := store h (v_cell px i) (aug i n) in
  let h :=
    for_loop (n - (i + 1)) (i + 1)
      (fun j h =>
         store h (v_cell px i)
           (sub (h (v_cell px i)) (mul (aug i j) (h (v_cell px j)))))
      h in
  store h (v_cell px i) (div (h (v_cell px i)) (aug i i)).

(** Lines 74-91, rows [cnt - 1] down to 0. *)
Fixpoint back_subst (cnt : nat) (aug : matrix) (px : nat) (h : heap)
  : heap * option solver_error :=
  match cnt with
  | O => (h, None)
  | S i =>
      if lt (fabs (aug i i)) epsilon then (h, Some ZeroPivot)
      else
        let h := solve_row i aug px h in
        if isnan (h (v_cell px i)) || isinf (h (v_cell px i))
        then (h, Some InvalidSolution)
        else back_subst i aug px h
  end.

(** The whole of [solve_linear_system], keeping track of the failure
    site. *)
Definition solve_status (h : heap) (pA pb px : nat)
  : heap * option solver_error :=
  match forward_elim n 0 (init_aug h pA pb) with
  | None => (h, Some SingularMatrix)
  | Some aug => back_subst n aug px h
  end.

(** [int solve_linear_system(double A[8][8], double b[8], double x[8])]:
    the store after the call and the returned 1 (success) or 0. *)
Definition solve_linear_system (h : heap) (pA pb px : nat) : heap * Z :=
  let '(h', r) := solve_status h pA pb px in
  (h', match r with None => 1%Z | Some _ => 0%Z end).

End Solver.

Import Solver.

(** ** The homography builder *)

(** Modelled from the spec: the struct declarations of the header
    [perspectivetransform.h], which is not part of the sources.  The field
    names are those the C file uses; [Matrix3x3] lists its nine
    coefficients in row-major order, the order of the positional
    initialisers of lines 137-141 and 241-245. *)
Record Corners : Type := mkCorners {
  tl_x : double; tl_y : double;
  tr_x : double; tr_y : double;
  br_x : double; br_y : double;
  bl_x : double; bl_y : double
}.

Record Matrix3x3 : Type := mkMatrix {
  m00 : double; m01 : double; m02 : double;
  m10 : double; m11 : double; m12 : double;
  m20 : double; m21 : double; m22 : double
}.

Module Homography.

(** Lines 137-141. *)
Definition identity : Matrix3x3 :=
  mkMatrix one zero zero
           zero one zero
           zero zero one.

(** The stack frame of [calculate_perspective_transform]: [A], [b] and
    [x], one after the other, all zero-initialised (lines 132-134). *)
Definition pA : nat := 0.
Definition pb : nat := 64.
Definition px : nat := 72.
Definition frame : heap := fun _ => zero.

(** Lines 165-174. *)
Definition any_nan (s d : Corners) : bool :=
  isnan (tl_x s) || isnan (tl_y s) ||
  isnan (tr_x s) || isnan (tr_y s) ||
  isnan (br_x s) || isnan (br_y s) ||
  isnan (bl_x s) || isnan (bl_y s) ||
  isnan (tl_x d) || isnan (tl_y d) ||
  isnan (tr_x d) || isnan (tr_y d) ||
  isnan (br_x d) || isnan (br_y d) ||
  isnan (bl_x d) || isnan (bl_y d).

(** Lines 181-201: the [switch]; the variables keep their initial 0.0
    when no case applies. *)
Definition corner (i : nat) (c : Corners) : double * double :=
  match i with
  | 0 => (tl_x c, tl_y c)
  | 1 => (tr_x c, tr_y c)
  | 2 => (br_x c, br_y c)
  | 3 => (bl_x c, bl_y c)
  | _ => (zero, zero)
  end.

(** Lines 210-223: the two equations of correspondence [i]. *)
Definition write_rows (i : nat) (srcX srcY dstX dstY : double) (h : heap) : heap :=
  let h := store h (A_cell pA i 0) srcX in
  let h := store h (A_cell pA i 1) srcY in
  let h := store h (A_cell pA i 2) one in
  let h := store h (A_cell pA i 6) (mul (neg srcX) dstX) in
  let h := store h (A_cell pA i 7) (mul (neg srcY) dstX) in
  let h := store h (v_cell pb i) dstX in
  let h := store h (A_cell pA (i + 4) 3) srcX in
  let h := store h (A_cell pA (i + 4) 4) srcY in
  let h := store h (A_cell pA (i + 4) 5) one in
  let h := store h (A_cell pA (i + 4) 6) (mul (neg srcX) dstY) in
  let h := store h (A_cell pA (i + 4) 7) (mul (neg srcY) dstY) in
  store h (v_cell pb (i + 4)) dstY.

(** Lines 180-224: [None] when the loop leaves through the infinity
    check. *)
Fixpoint setup_system (cnt i : nat) (s d : Corners) (h : heap) : option heap :=
  match cnt with
  | O => Some h
  | S c =>
      let '(srcX, srcY) := corner i s in
      let '(dstX, dstY) := corner i d in
      if isinf srcX || isinf srcY || isinf dstX || isinf dstY then None
      else setup_system c (S i) s d (write_rows i srcX srcY dstX dstY h)
  end.

(** Lines 233-238. *)
Fixpoint solution_ok (cnt i : nat) (h : heap) : bool :=
  match cnt with
  | O => true
  | S c =>
      let xi := h (v_cell px i) in
      if isnan xi || isinf xi || gt (fabs xi) bound_1e6 then false
      else solution_ok c (S i) h
  end.

(** Lines 241-245. *)
Definition assemble (h : heap) : Matrix3x3 :=
  mkMatrix (h (v_cell px 0)) (h (v_cell px 1)) (h (v_cell px 2))
           (h (v_cell px 3)) (h (v_cell px 4)) (h (v_cell px 5))
           (h (v_cell px 6)) (h (v_cell px 7)) one.

(** Lines 255-262. *)
Definition result_invalid (r : Matrix3x3) : bool :=
  isnan (m00 r) || isnan (m01 r) || isnan (m02 r) ||
  isnan (m10 r) || isnan (m11 r) || isnan (m12 r) ||
  isnan (m20 r) || isnan (m21 r) || isnan (m22 r) ||
  isinf (m00 r) || isinf (m01 r) || isinf (m02 r) ||
  isinf (m10 r) || isinf (m11 r) || isinf (m12 r) ||
  isinf (m20 r) || isinf (m21 r) || isinf (m22 r).

(** [calculate_perspective_transform], from two pointers to [Corners] to
    a pointer to [Matrix3x3].  A null argument is [None].  The function
    is given by the value behind the pointer it returns: the static
    [identity], which it never writes, or the freshly allocated result
    ([malloc] is taken to succeed, as line 241 takes it). *)
Definition calculate_perspective_transform (src_corners dst_corners : option Corners)
  : Matrix3x3 :=
  match src_corners, dst_corners with
  | Some s, Some d =>
      if any_nan s d then identity
      else
        match setup_system 4 0 s d frame with
        | None => identity
        | Some h =>
            let '(h, ok) := solve_linear_system h pA pb px in
            if Z.eqb ok 0 then identity
            else if negb (solution_ok 8 0 h) then identity
            else
              let result := assemble h in
              if result_invalid result then identity else result
        end
  | _, _ => identity
  end.

End Homography.

Import Homography.

(** ** Vocabulary of the statements *)

(** The comparison of two finite values of one sign: exponents first,
    then mantissas. *)
Definition lex (e1 : Z) (m1 : positive) (e2 : Z) (m2 : positive) : comparison :=
  match (e1 ?= e2)%Z with
  | Lt => Lt
  | Gt => Gt
  | Eq => (m1 ?= m2)%positive
  end.

(** The eight coordinates of a corner set. *)
Definition coordinates (c : Corners) : list double :=
  [tl_x c; tl_y c; tr_x c; tr_y c; br_x c; br_y c; bl_x c; bl_y c].

(** The infinity check of round [i] of the set-up loop (line 204). *)
Definition corner_inf (i : nat) (s d : Corners) : bool :=
  isinf (fst (corner i s)) || isinf (snd (corner i s)) ||
  isinf (fst (corner i d)) || isinf (snd (corner i d)).


(** The matrix on which round [i] eliminates: rows [i] and [max_row]
    exchanged, unless they are the same row. *)
Definition pivoted (i : nat) (aug : matrix) : matrix :=
  let max_row := fst (find_pivot i aug) in
  if Nat.eqb max_row i then aug else swap_rows i max_row aug.

(** Entry [(j, k)] once row [j] has lost its multiple of row [i]. *)
Definition eliminated (i : nat) (aug : matrix) (j k : nat) : double :=
  sub (aug j k) (mul (div (aug j i) (aug i i)) (aug i k)).

(** The stages of the builder at which a call can fail, after the spec's
    error taxonomy. *)
Inductive stage_failure : option Corners -> option Corners -> Prop :=
| NullInput (src dst : option Corners) :
    src = None \/ dst = None -> stage_failure src dst
| InvalidCoordinate (s d : Corners) :
    any_nan s d = true \/ setup_system 4 0 s d frame = None ->
    stage_failure (Some s) (Some d)
| SolverFailure (s d : Corners) (h : heap) (e : solver_error) :
    setup_system 4 0 s d frame = Some h ->
    snd (solve_status h pA pb px) = Some e ->
    stage_failure (Some s) (Some d)
| DegenerateSolution (s d : Corners) (h : heap) :
    setup_system 4 0 s d frame = Some h ->
    solution_ok 8 0 (fst (solve_linear_system h pA pb px)) = false ->
    stage_failure (Some s) (Some d)
| InvalidResultMatrix (s d : Corners) (h : heap) :
    setup_system 4 0 s d frame = Some h ->
    result_invalid (assemble (fst (solve_linear_system h pA pb px))) = true ->
    stage_failure (Some s) (Some d).

Definition entries (r : Matrix3x3) : list double :=
  [m00 r; m01 r; m02 r; m10 r; m11 r; m12 r; m20 r; m21 r; m22 r].

Definition free_entries (r : Matrix3x3) : list double :=
  [m00 r; m01 r; m02 r; m10 r; m11 r; m12 r; m20 r; m21 r].

(** Shape (a) of a returned matrix: a validated solution. *)
Definition validated (r : Matrix3x3) : Prop :=
  Forall (fun v => is_finite v = true) (entries r) /\
  m22 r = one /\
  Forall (fun v => le (fabs v) bound_1e6 = true) (free_entries r).

(** Closeness within [1e-9]. *)
Definition tolerance : double :=
  Eval vm_compute in div (of_Z 1) (of_Z (10 ^ 9)).

Definition approx (a b : double) : Prop :=
  le (fabs (sub a b)) tolerance = true.

(** ** Concrete inputs *)

Definition square (a : double) : Corners :=
  mkCorners zero zero a zero a a zero a.

Definition unit_square : Corners := square one.
Definition double_square : Corners := square two.

(** The collinear corners (0,0), (1,0), (2,0), (3,0). *)
Definition collinear : Corners :=
  mkCorners zero zero one zero two zero three zero.

(** 10^200 (rounded), whose square overflows. *)
Definition huge : double := Eval vm_compute in of_Z (10 ^ 200).

Definition nan_square : Corners :=
  mkCorners zero zero one zero one S754_nan zero one.
Definition inf_square : Corners :=
  mkCorners zero zero one zero (S754_infinity true) one zero one.

(** The frame of the builder once the system is set up. *)
Definition system_of (s d : Corners) : heap :=
  match setup_system 4 0 s d frame with
  | Some h => h
  | None => frame
  end.

(** A store holding [A = 2 I] in cells 0-63 and the value 2 everywhere
    else, in particular in [b], cells 64-71. *)
Definition two_identity_heap : heap :=
  fun a => if a <? 64 then (if a mod 9 =? 0 then two else zero) else two.




(** ** The point normalisation *)

Module Normalize.

Definition sqrt : double -> double := SFsqrt prec emax.

(** The integer literal [4], converted to [double] by the divisions. *)
Definition four : double := Eval vm_compute in of_Z 4.

(** Modelled from the spec: the struct [Point2D] of the header
    [perspectivetransform.h], which is not part of the sources: a pair of
    doubles [x], [y], in this order, so that [points[i].x] and
    [points[i].y] are the cells [2 i] and [2 i + 1] behind [points]. *)
Definition x_cell (points i : nat) : nat := points + 2 * i.
Definition y_cell (points i : nat) : nat := points + 2 * i + 1.

(** Lines 98-108: the centroid. *)
Definition centroid (h : heap) (points : nat) : double * double :=
  let '(mean_x, mean_y) :=
    for_loop 4 0
      (fun i '(mean_x, mean_y) =>
         (add mean_x (h (x_cell points i)), add mean_y (h (y_cell points i))))
      (zero, zero) in
  (div mean_x four, div mean_y four).

(** Lines 111-115: the sum of the distances to the centroid. *)
Definition sum_distances (h : heap) (points : nat) (mean_x mean_y : double) : double :=
  for_loop 4 0
    (fun i sum_dist =>
       let dx := sub (h (x_cell points i)) mean_x in
       let dy := sub (h (y_cell points i)) mean_y in
       add sum_dist (sqrt (add (mul dx dx) (mul dy dy))))
    zero.

(** Line 119: the value stored in [*scale]. *)
Definition scale_for (avg_dist : double) : double :=
  if gt avg_dist epsilon then div (sqrt two) avg_dist else one.

(** [static void normalize_points(Point2D points[4], double *scale,
    double *tx, double *ty)]: the store after the call.  The last loop
    reads [*tx], [*ty] and [*scale] back from memory, as the C code does. *)
Definition normalize_points (h : heap) (points scale tx ty : nat) : heap :=
  let '(mean_x, mean_y) := centroid h points in
  let sum_dist := sum_distances h points mean_x mean_y in
  let avg_dist := div sum_dist four in
  let h := store h scale (scale_for avg_dist) in
  let h := store h tx (neg mean_x) in
  let h := store h ty (neg mean_y) in
  for_loop 4 0
    (fun i h =>
       let h := store h (x_cell points i)
                  (mul (add (h (x_cell points i)) (h tx)) (h scale)) in
       store h (y_cell points i)
         (mul (add (h (y_cell points i)) (h ty)) (h scale)))
    h.

End Normalize.

Import Normalize.

(** ** Vocabulary of the further statements *)

(** Two matrices with the same entries. *)
Definition same_entries (a b : matrix) : Prop := forall r c, a r c = b r c.

(** Two stores with the same [A] and the same [b]. *)
Definition same_system (pA pb : nat) (h1 h2 : heap) : Prop :=
  (forall i j, i < 8 -> j < 8 -> h1 (A_cell pA i j) = h2 (A_cell pA i j)) /\
  (forall i, i < 8 -> h1 (v_cell pb i) = h2 (v_cell pb i)).

(** The sign bit of a double that is not NaN. *)
Definition is_negative (a : double) : bool :=
  match a with
  | S754_zero s | S754_infinity s | S754_finite s _ _ => s
  | S754_nan => false
  end.

(** Two options of matrices: both absent, or both present with the same
    entries. *)
Definition same_outcome (x y : option matrix) : Prop :=
  match x, y with
  | None, None => True
  | Some a, Some b => same_entries a b
  | _, _ => False
  end.

(** Two stores that agree on [x[lo]], ..., [x[7]]. *)
Definition same_tail (px lo : nat) (h1 h2 : heap) : Prop :=
  forall j, lo <= j < n -> h1 (v_cell px j) = h2 (v_cell px j).

(** The cells of the four points. *)
Definition point_cell (points a : nat) : Prop :=
  exists i, i < 4 /\ (a = x_cell points i \/ a = y_cell points i).

(** The unit square as four [Point2D], in cells 0 to 7 of a store. *)
Definition square_points : heap :=
  fun a =>
    match a with
    | 2 | 4 | 5 | 7 => one
    | _ => zero
    end.

(** ** Basic facts: comparisons, stores and loops *)

Section Comparisons.

Lemma lex_Lt e1 m1 e2 m2 :
  lex e1 m1 e2 m2 = Lt <-> (e1 < e2 \/ (e1 = e2 /\ Zpos m1 < Zpos m2))%Z.
Proof.
  unfold lex. destruct (Z.compare_spec e1 e2) as [E|E|E].
  - rewrite Pos.compare_lt_iff. split; [right; split; [assumption|lia]|].
    intros [H|[_ H]]; lia.
  - split; [intros _; left; assumption | reflexivity].
  - split; [discriminate | lia].
Qed.

Lemma lex_antisym e1 m1 e2 m2 : lex e2 m2 e1 m1 = CompOpp (lex e1 m1 e2 m2).
Proof.
  unfold lex. rewrite (Z.compare_antisym e1 e2).
  destruct (e1 ?= e2)%Z; simpl; try reflexivity.
  apply Pos.compare_antisym.
Qed.

Lemma lex_Gt e1 m1 e2 m2 : lex e1 m1 e2 m2 = Gt <-> lex e2 m2 e1 m1 = Lt.
Proof.
  rewrite (lex_antisym e1 m1 e2 m2). destruct (lex e1 m1 e2 m2); simpl; split; congruence.
Qed.

Lemma SFcompare_finite s1 m1 e1 s2 m2 e2 :
  SFcompare (S754_finite s1 m1 e1) (S754_finite s2 m2 e2) =
  Some match s1, s2 with
       | true, false => Lt
       | false, true => Gt
       | false, false => lex e1 m1 e2 m2
       | true, true => CompOpp (lex e1 m1 e2 m2)
       end.
Proof.
  unfold lex. simpl. destruct s1, s2; try reflexivity;
    destruct (e1 ?= e2)%Z; reflexivity.
Qed.

Lemma SFcompare_antisym (a b : double) :
  SFcompare b a = option_map CompOpp (SFcompare a b).
Proof.
  destruct a as [sa|sa| |sa ma ea], b as [sb|sb| |sb mb eb];
    try rewrite !SFcompare_finite; simpl;
    try reflexivity;
    try (destruct sa; reflexivity);
    try (destruct sb; reflexivity);
    try (destruct sa, sb; reflexivity).
  destruct sa, sb; simpl; try reflexivity;
    rewrite (lex_antisym ea ma eb mb); destruct (lex ea ma eb mb); reflexivity.
Qed.

(** [!(a > b)] gives [a <= b] once neither side is NaN. *)
Lemma not_gt_le (a b : double) :
  isnan a = false -> isnan b = false -> gt a b = false -> le a b = true.
Proof.
  unfold gt, le, SFltb, SFleb. rewrite (SFcompare_antisym a b).
  destruct (SFcompare a b) as [[]|] eqn:E; simpl; try congruence.
  destruct a, b; simpl in *; congruence.
Qed.

(** [<] on doubles is transitive. *)
Lemma lt_trans (a b c : double) :
  lt a b = true -> lt b c = true -> lt a c = true.
Proof.
  unfold lt, SFltb.
  destruct a as [sa|sa| |sa ma ea], b as [sb|sb| |sb mb eb],
           c as [sc|sc| |sc mc ec];
    try rewrite !SFcompare_finite; simpl;
    repeat match goal with s : bool |- _ => destruct s end;
    simpl; try congruence.
  - destruct (lex ea ma eb mb) eqn:E1; try discriminate.
    destruct (lex eb mb ec mc) eqn:E2; try discriminate.
    intros _ _.
    apply lex_Gt in E1. apply lex_Gt in E2.
    destruct (lex ea ma ec mc) eqn:E3; simpl; try reflexivity; exfalso.
    + assert (H : lex ec mc ea ma = Eq)
        by (rewrite lex_antisym, E3; reflexivity).
      unfold lex in E3, H. apply lex_Lt in E1. apply lex_Lt in E2.
      destruct (Z.compare_spec ea ec); try discriminate.
      apply Pos.compare_eq in E3. subst. lia.
    + apply lex_Lt in E1. apply lex_Lt in E2. apply lex_Lt in E3. lia.
  - destruct (lex ea ma eb mb) eqn:E1; try discriminate.
    destruct (lex eb mb ec mc) eqn:E2; try discriminate.
    intros _ _.
    apply lex_Lt in E1. apply lex_Lt in E2.
    assert (E3 : lex ea ma ec mc = Lt) by (apply lex_Lt; lia).
    rewrite E3. reflexivity.
Qed.

(** What the pivot search relies on: a candidate that was not larger
    than the old maximum is not larger than a new, larger one. *)
Lemma gt_trans_false (a m m' : double) :
  gt a m = false -> gt m' m = true -> gt a m' = false.
Proof.
  unfold gt. intros Ha Hm.
  destruct (SFltb m' a) eqn:E; [|reflexivity].
  change (lt m a = false) in Ha.
  rewrite (lt_trans m m' a Hm E) in Ha. discriminate.
Qed.

Lemma fabs_not_nan (a : double) : isnan (fabs a) = isnan a.
Proof. destruct a; reflexivity. Qed.

End Comparisons.

Section StoresAndLoops.

Lemma store_eq (h : heap) (a : nat) (v : double) : store h a v a = v.
Proof. unfold store. rewrite Nat.eqb_refl. reflexivity. Qed.

Lemma store_neq (h : heap) (a a' : nat) (v : double) :
  a' <> a -> store h a v a' = h a'.
Proof. unfold store. intros H. apply Nat.eqb_neq in H. rewrite H. reflexivity. Qed.

Lemma mset_eq (m : matrix) (i j : nat) (v : double) : mset m i j v i j = v.
Proof. unfold mset. rewrite !Nat.eqb_refl. reflexivity. Qed.

Lemma mset_neq (m : matrix) (i j i' j' : nat) (v : double) :
  i' <> i \/ j' <> j -> mset m i j v i' j' = m i' j'.
Proof.
  unfold mset. intros [H|H]; apply Nat.eqb_neq in H; rewrite H;
    [reflexivity | rewrite andb_false_r; reflexivity].
Qed.

(** Invariant rule for the counted loop. *)
Lemma for_loop_inv {St : Type} (P : nat -> St -> Prop) (body : nat -> St -> St) :
  forall cnt k s,
    P k s ->
    (forall j t, k <= j < k + cnt -> P j t -> P (S j) (body j t)) ->
    P (k + cnt) (for_loop cnt k body s).
Proof.
  induction cnt as [|c IH]; intros k s H0 Hstep; simpl.
  - rewrite Nat.add_0_r. assumption.
  - replace (k + S c) with (S k + c) by lia.
    apply IH.
    + apply Hstep; [lia | assumption].
    + intros j t Hj. apply Hstep. lia.
Qed.

End StoresAndLoops.

(** ** The builder's validation stages *)

Section Builder.

Lemma any_nan_spec (s d : Corners) :
  any_nan s d = true <->
  Exists (fun v => isnan v = true) (coordinates s ++ coordinates d).
Proof.
  destruct s, d; unfold any_nan, coordinates; simpl.
  rewrite !Exists_cons, Exists_nil, !orb_true_iff. tauto.
Qed.

Lemma setup_system_step (c i : nat) (s d : Corners) (h : heap) :
  setup_system (S c) i s d h =
  if corner_inf i s d then None
  else setup_system c (S i) s d
         (write_rows i (fst (corner i s)) (snd (corner i s))
                       (fst (corner i d)) (snd (corner i d)) h).
Proof.
  unfold corner_inf. simpl.
  destruct (corner i s), (corner i d). reflexivity.
Qed.

Lemma setup_system_None (cnt : nat) :
  forall i s d h,
    setup_system cnt i s d h = None <->
    exists k, i <= k < i + cnt /\ corner_inf k s d = true.
Proof.
  induction cnt as [|c IH]; intros i s d h.
  - simpl. split; [discriminate | intros (k & Hk & _); lia].
  - rewrite setup_system_step.
    destruct (corner_inf i s d) eqn:E.
    + split; [intros _; exists i; split; [lia | assumption] | reflexivity].
    + rewrite IH. split; intros (k & Hk & Hinf).
      * exists k. split; [lia | assumption].
      * exists k. split; [|assumption].
        destruct (Nat.eq_dec k i) as [->|]; [congruence | lia].
Qed.

Lemma any_inf_spec (s d : Corners) :
  Exists (fun v => isinf v = true) (coordinates s ++ coordinates d) ->
  exists k, 0 <= k < 0 + 4 /\ corner_inf k s d = true.
Proof.
  destruct s, d; unfold coordinates; simpl.
  rewrite !Exists_cons, Exists_nil.
  intros H.
  repeat match type of H with
         | _ \/ _ => destruct H as [H|H]
         end;
    try contradiction;
    [ exists 0 | exists 0 | exists 1 | exists 1 | exists 2 | exists 2
    | exists 3 | exists 3 | exists 0 | exists 0 | exists 1 | exists 1
    | exists 2 | exists 2 | exists 3 | exists 3 ];
    (split; [lia|]); unfold corner_inf; simpl; rewrite H;
    rewrite ?orb_true_r; reflexivity.
Qed.

Lemma solution_ok_step (c i : nat) (h : heap) :
  solution_ok (S c) i h =
  if isnan (h (v_cell px i)) || isinf (h (v_cell px i))
     || gt (fabs (h (v_cell px i))) bound_1e6
  then false else solution_ok c (S i) h.
Proof. reflexivity. Qed.

Lemma solution_ok_spec (cnt : nat) :
  forall i h,
    solution_ok cnt i h = true ->
    forall k, i <= k < i + cnt ->
      isnan (h (v_cell px k)) = false /\
      isinf (h (v_cell px k)) = false /\
      gt (fabs (h (v_cell px k))) bound_1e6 = false.
Proof.
  induction cnt as [|c IH]; intros i h H k Hk; [lia|].
  rewrite solution_ok_step in H.
  destruct (isnan (h (v_cell px i))) eqn:E1; [discriminate|].
  destruct (isinf (h (v_cell px i))) eqn:E2; [discriminate|].
  destruct (gt (fabs (h (v_cell px i))) bound_1e6) eqn:E3; [discriminate|].
  cbn [orb] in H.
  destruct (Nat.eq_dec k i) as [->|Hne]; [auto|].
  apply (IH (S i) h H). lia.
Qed.

Lemma finite_of_checks (a : double) :
  isnan a = false -> isinf a = false -> is_finite a = true.
Proof. destruct a; simpl; congruence. Qed.

End Builder.

(** ** The solver's loops *)

Section SolverFacts.

Lemma lt_irrefl (a : double) : lt a a = false.
Proof.
  unfold lt, SFltb. pose proof (SFcompare_antisym a a) as H.
  destruct (SFcompare a a) as [[]|]; simpl in H; congruence.
Qed.

(** *** The augmented copy *)

(** The private copy holds [A] in its columns 0 to 7 and [b] in column 8. *)
Lemma init_aug_spec (h : heap) (pA pb : nat) :
  forall r, r < n ->
    (forall c, c < n -> init_aug h pA pb r c = h (A_cell pA r c)) /\
    init_aug h pA pb r n = h (v_cell pb r).
Proof.
  unfold init_aug.
  pose (P := fun (i : nat) (a : matrix) =>
               forall r, r < i ->
                 (forall c, c < n -> a r c = h (A_cell pA r c)) /\
                 a r n = h (v_cell pb r)).
  change (P (0 + n)
            (for_loop n 0
               (fun i aug =>
                  let aug := for_loop n 0
                               (fun j aug => mset aug i j (h (A_cell pA i j))) aug in
                  mset aug i n (h (v_cell pb i)))
               (fun _ _ => zero))).
  apply for_loop_inv; unfold P.
  - intros r Hr. lia.
  - intros i a Hi Ha r Hr. cbv zeta.
    pose (Q := fun (j : nat) (a' : matrix) =>
                 (forall r' c, r' <> i -> a' r' c = a r' c) /\
                 (forall c, c < j -> a' i c = h (A_cell pA i c))).
    assert (HQ : Q (0 + n)
                   (for_loop n 0 (fun j aug => mset aug i j (h (A_cell pA i j))) a)).
    { apply for_loop_inv; unfold Q.
      - split; [reflexivity | intros; lia].
      - intros j t Hj (Hkeep & Hrow). split.
        + intros r' c Hr'. rewrite mset_neq by (left; assumption).
          apply Hkeep. assumption.
        + intros c Hc. destruct (Nat.eq_dec c j) as [->|Hne].
          * apply mset_eq.
          * rewrite mset_neq by (right; assumption). apply Hrow. lia. }
    destruct HQ as (Hkeep & Hrow).
    destruct (Nat.eq_dec r i) as [->|Hne].
    + split.
      * intros c Hc. rewrite mset_neq by (right; lia). apply Hrow. unfold n in *. lia.
      * apply mset_eq.
    + rewrite !mset_neq by (left; assumption).
      split.
      * intros c Hc. rewrite mset_neq by (left; assumption).
        rewrite Hkeep by assumption. apply Ha; [lia | assumption].
      * rewrite Hkeep by assumption. apply Ha. lia.
Qed.

(** *** Pivot search *)

Lemma find_pivot_spec (i : nat) (aug : matrix) :
  i < n ->
  i <= fst (find_pivot i aug) < n /\
  snd (find_pivot i aug) = fabs (aug (fst (find_pivot i aug)) i) /\
  forall k, i <= k < n -> gt (fabs (aug k i)) (snd (find_pivot i aug)) = false.
Proof.
  intros Hi. unfold find_pivot.
  set (body := fun (k : nat) '(max_row, max_val) =>
                 if gt (fabs (aug k i)) max_val
                 then (k, fabs (aug k i)) else (max_row, max_val)).
  pose (P := fun (k : nat) (r : nat * double) =>
               i <= fst r < k /\ snd r = fabs (aug (fst r) i) /\
               forall k', i <= k' < k -> gt (fabs (aug k' i)) (snd r) = false).
  assert (H : P (i + 1 + (n - (i + 1)))
                (for_loop (n - (i + 1)) (i + 1) body (i, fabs (aug i i)))).
  { apply for_loop_inv.
    - unfold P; simpl. repeat split; try lia.
      intros k' Hk'. replace k' with i by lia. apply lt_irrefl.
    - intros j [mr mv] Hj (Hr & Hv & Hmax). unfold P, body. simpl in *.
      destruct (gt (fabs (aug j i)) mv) eqn:E; simpl.
      + repeat split; try lia.
        intros k' Hk'. destruct (Nat.eq_dec k' j) as [->|Hne].
        * apply lt_irrefl.
        * apply gt_trans_false with (m := mv); [apply Hmax; lia | assumption].
      + repeat split; try lia; try assumption.
        intros k' Hk'. destruct (Nat.eq_dec k' j) as [->|Hne];
          [assumption | apply Hmax; lia]. }
  replace (i + 1 + (n - (i + 1))) with n in H by lia.
  exact H.
Qed.

(** *** Row exchange *)

Lemma swap_rows_spec (i max_row : nat) (aug : matrix) :
  forall r c,
    swap_rows i max_row aug r c =
    if c <=? n then
      if r =? max_row then aug i c
      else if r =? i then aug max_row c
      else aug r c
    else aug r c.
Proof.
  unfold swap_rows.
  pose (P := fun (k : nat) (a : matrix) =>
               forall r c,
                 a r c =
                 if c <? k then
                   if r =? max_row then aug i c
                   else if r =? i then aug max_row c
                   else aug r c
                 else aug r c).
  assert (H : P (0 + (n + 1))
                (for_loop (n + 1) 0
                   (fun j a => let temp := a i j in
                               let a := mset a i j (a max_row j) in
                               mset a max_row j temp) aug)).
  { apply for_loop_inv.
    - intros r c. reflexivity.
    - intros j a Hj Ha r c. cbv zeta. unfold mset.
      rewrite !Ha. rewrite Nat.ltb_irrefl.
      destruct (Nat.eqb_spec c j) as [->|Hc].
      + rewrite Nat.ltb_irrefl.
        replace (j <? S j) with true by (symmetry; apply Nat.ltb_lt; lia).
        rewrite andb_true_r.
        destruct (r =? max_row); [reflexivity|].
        destruct (r =? i); reflexivity.
      + rewrite !andb_false_r.
        destruct (Nat.ltb_spec c j), (Nat.ltb_spec c (S j)); try lia; reflexivity. }
  unfold P in H. intros r c. rewrite (H r c).
  replace (c <? 0 + (n + 1)) with (c <=? n); [reflexivity|].
  destruct (Nat.leb_spec c n), (Nat.ltb_spec c (0 + (n + 1))); try lia; reflexivity.
Qed.

(** *** Elimination below the pivot *)

Lemma eliminate_row_spec (i j : nat) (factor : double) (a0 : matrix) :
  j <> i ->
  forall r c,
    for_loop (n + 1 - i) i
      (fun k a => mset a j k (sub (a j k) (mul factor (a i k)))) a0 r c =
    if (r =? j) && (i <=? c) && (c <=? n)
    then sub (a0 j c) (mul factor (a0 i c))
    else a0 r c.
Proof.
  intros Hji.
  pose (P := fun (k : nat) (a : matrix) =>
               forall r c,
                 a r c = if (r =? j) && (i <=? c) && (c <? k)
                         then sub (a0 j c) (mul factor (a0 i c))
                         else a0 r c).
  assert (H : P (i + (n + 1 - i))
                (for_loop (n + 1 - i) i
                   (fun k a => mset a j k (sub (a j k) (mul factor (a i k)))) a0)).
  { apply for_loop_inv.
    - intros r c.
      destruct (Nat.leb_spec i c), (Nat.ltb_spec c i); try lia;
        rewrite ?andb_false_r; reflexivity.
    - intros k a Hk Ha r c. unfold mset.
      rewrite (Ha j k), (Ha i k), (Ha r c).
      replace (i =? j) with false by (symmetry; apply Nat.eqb_neq; lia).
      rewrite Nat.ltb_irrefl, andb_false_r. cbn [andb].
      destruct (Nat.eqb_spec r j) as [->|Hr]; cbn [andb]; [|reflexivity].
      destruct (Nat.eqb_spec c k) as [->|Hc].
      + replace (i <=? k) with true by (symmetry; apply Nat.leb_le; lia).
        replace (k <? S k) with true by (symmetry; apply Nat.ltb_lt; lia).
        reflexivity.
      + destruct (Nat.leb_spec i c); cbn [andb]; [|reflexivity].
        destruct (Nat.ltb_spec c k), (Nat.ltb_spec c (S k)); try lia; reflexivity. }
  unfold P in H. intros r c. rewrite (H r c).
  destruct (Nat.leb_spec i n) as [Hin|Hin].
  - replace (c <? i + (n + 1 - i)) with (c <=? n); [reflexivity|].
    destruct (Nat.leb_spec c n), (Nat.ltb_spec c (i + (n + 1 - i))); try lia; reflexivity.
  - destruct (Nat.leb_spec i c), (Nat.leb_spec c n),
      (Nat.ltb_spec c (i + (n + 1 - i))); try lia;
      rewrite ?andb_false_r; reflexivity.
Qed.

Lemma eliminate_spec (i : nat) (aug : matrix) :
  i < n ->
  forall r c,
    eliminate i aug r c =
    if (i <? r) && (r <? n) && (i <=? c) && (c <=? n)
    then eliminated i aug r c
    else aug r c.
Proof.
  intros Hi. unfold eliminate.
  pose (P := fun (j : nat) (a : matrix) =>
               forall r c,
                 a r c = if (i <? r) && (r <? j) && (i <=? c) && (c <=? n)
                         then eliminated i aug r c
                         else aug r c).
  assert (H : P (i + 1 + (n - (i + 1)))
                (for_loop (n - (i + 1)) (i + 1)
                   (fun j a =>
                      let factor := div (a j i) (a i i) in
                      for_loop (n + 1 - i) i
                        (fun k a => mset a j k (sub (a j k) (mul factor (a i k))))
                        a) aug)).
  { apply for_loop_inv.
    - intros r c.
      destruct (Nat.ltb_spec i r), (Nat.ltb_spec r (i + 1)); try lia;
        rewrite ?andb_false_r; reflexivity.
    - intros j a Hj Ha r c. cbv zeta.
      rewrite eliminate_row_spec by lia.
      assert (Hrow_j : forall c', a j c' = aug j c').
      { intros c'. rewrite (Ha j c'), Nat.ltb_irrefl, andb_false_r. reflexivity. }
      assert (Hrow_i : forall c', a i c' = aug i c').
      { intros c'. rewrite (Ha i c'), Nat.ltb_irrefl. reflexivity. }
      rewrite !Hrow_j, !Hrow_i, (Ha r c).
      destruct (Nat.eqb_spec r j) as [->|Hr]; cbn [andb].
      + replace (i <? j) with true by (symmetry; apply Nat.ltb_lt; lia).
        replace (j <? S j) with true by (symmetry; apply Nat.ltb_lt; lia).
        rewrite Nat.ltb_irrefl.
        cbn [andb]. destruct ((i <=? c) && (c <=? n)); reflexivity.
      + destruct (Nat.ltb_spec i r); cbn [andb]; [|reflexivity].
        destruct (Nat.ltb_spec r j), (Nat.ltb_spec r (S j)); try lia; reflexivity. }
  replace (i + 1 + (n - (i + 1))) with n in H by lia.
  exact H.
Qed.

(** *** One round, and all rounds *)

Lemma pivot_step_eq (i : nat) (aug : matrix) :
  pivot_step i aug =
  if lt (snd (find_pivot i aug)) epsilon then None
  else Some (eliminate i (pivoted i aug)).
Proof.
  unfold pivot_step, pivoted. destruct (find_pivot i aug). reflexivity.
Qed.

Lemma pivoted_row_i (i : nat) (aug : matrix) (c : nat) :
  i < n -> c <= n -> pivoted i aug i c = aug (fst (find_pivot i aug)) c.
Proof.
  intros Hi Hc. unfold pivoted.
  destruct (Nat.eqb_spec (fst (find_pivot i aug)) i) as [E|E].
  - rewrite E. reflexivity.
  - rewrite swap_rows_spec.
    replace (c <=? n) with true by (symmetry; apply Nat.leb_le; lia).
    rewrite Nat.eqb_refl.
    destruct (Nat.eqb_spec i (fst (find_pivot i aug))); [congruence | reflexivity].
Qed.

Lemma pivoted_above (i : nat) (aug : matrix) (r c : nat) :
  i < n -> r < i -> pivoted i aug r c = aug r c.
Proof.
  intros Hi Hr. unfold pivoted.
  destruct (Nat.eqb_spec (fst (find_pivot i aug)) i) as [E|E]; [reflexivity|].
  rewrite swap_rows_spec.
  pose proof (find_pivot_spec i aug Hi) as (Hrow & _).
  destruct (Nat.eqb_spec r (fst (find_pivot i aug))); [lia|].
  destruct (Nat.eqb_spec r i); [lia|].
  destruct (c <=? n); reflexivity.
Qed.

Lemma eliminate_upto (i : nat) (aug : matrix) (r c : nat) :
  i < n -> r <= i -> eliminate i aug r c = aug r c.
Proof.
  intros Hi Hr. rewrite eliminate_spec by assumption.
  destruct (Nat.ltb_spec i r); [lia | reflexivity].
Qed.

Lemma pivot_step_diag (i : nat) (aug aug' : matrix) :
  i < n -> pivot_step i aug = Some aug' ->
  lt (fabs (aug' i i)) epsilon = false /\
  forall r c, r < i -> aug' r c = aug r c.
Proof.
  intros Hi. rewrite pivot_step_eq.
  destruct (lt (snd (find_pivot i aug)) epsilon) eqn:E; [discriminate|].
  intros [= <-]. split.
  - rewrite eliminate_upto by lia.
    rewrite pivoted_row_i by (unfold n in *; lia).
    pose proof (find_pivot_spec i aug Hi) as (_ & <- & _). exact E.
  - intros r c Hr. rewrite eliminate_upto by lia.
    apply pivoted_above; assumption.
Qed.

Lemma forward_elim_diag (cnt : nat) :
  forall i aug aug',
    i + cnt <= n ->
    forward_elim cnt i aug = Some aug' ->
    (forall r c, r < i -> aug' r c = aug r c) /\
    (forall r, i <= r < i + cnt -> lt (fabs (aug' r r)) epsilon = false).
Proof.
  induction cnt as [|k IH]; intros i aug aug' Hb H.
  - injection H as <-. split; [reflexivity | intros; lia].
  - cbn [forward_elim] in H.
    destruct (pivot_step i aug) as [aug1|] eqn:E; [|discriminate].
    apply pivot_step_diag in E as (Hd & Hrows); [|lia].
    apply IH in H as (Hkeep & Hdiag); [|lia].
    split.
    + intros r c Hr. rewrite Hkeep by lia. apply Hrows. assumption.
    + intros r Hr. destruct (Nat.eq_dec r i) as [->|Hne].
      * rewrite Hkeep by lia. assumption.
      * apply Hdiag. lia.
Qed.

(** *** Back-substitution *)

Lemma solve_row_frame (i : nat) (aug : matrix) (px : nat) (h : heap) (a : nat) :
  a <> v_cell px i -> solve_row i aug px h a = h a.
Proof.
  intros Ha. unfold solve_row. cbv zeta.
  rewrite store_neq by assumption.
  pose (P := fun (_ : nat) (h' : heap) => h' a = h a).
  change (P (i + 1 + (n - (i + 1)))
            (for_loop (n - (i + 1)) (i + 1)
               (fun j h0 =>
                  store h0 (v_cell px i)
                    (sub (h0 (v_cell px i)) (mul (aug i j) (h0 (v_cell px j)))))
               (store h (v_cell px i) (aug i n)))).
  apply for_loop_inv; unfold P.
  - apply store_neq. assumption.
  - intros j t _ Ht. rewrite store_neq; assumption.
Qed.

Lemma back_subst_step (i : nat) (aug : matrix) (px : nat) (h : heap) :
  back_subst (S i) aug px h =
  if lt (fabs (aug i i)) epsilon then (h, Some ZeroPivot)
  else if isnan (solve_row i aug px h (v_cell px i))
          || isinf (solve_row i aug px h (v_cell px i))
       then (solve_row i aug px h, Some InvalidSolution)
       else back_subst i aug px (solve_row i aug px h).
Proof. reflexivity. Qed.

Lemma back_subst_frame (cnt : nat) :
  forall aug px h a,
    (forall i, i < cnt -> a <> v_cell px i) ->
    fst (back_subst cnt aug px h) a = h a.
Proof.
  induction cnt as [|i IH]; intros aug px h a Ha; [reflexivity|].
  rewrite back_subst_step.
  destruct (lt (fabs (aug i i)) epsilon); [reflexivity|].
  destruct (isnan _ || isinf _).
  - apply solve_row_frame. apply Ha. lia.
  - rewrite IH by (intros; apply Ha; lia).
    apply solve_row_frame. apply Ha. lia.
Qed.

Lemma back_subst_finite (cnt : nat) :
  forall aug px h,
    snd (back_subst cnt aug px h) = None ->
    forall i, i < cnt ->
      is_finite (fst (back_subst cnt aug px h) (v_cell px i)) = true.
Proof.
  induction cnt as [|k IH]; intros aug px h H i Hi; [lia|].
  rewrite back_subst_step in H |- *.
  destruct (lt (fabs (aug k k)) epsilon); [discriminate|].
  destruct (isnan (solve_row k aug px h (v_cell px k))) eqn:E1; [discriminate|].
  destruct (isinf (solve_row k aug px h (v_cell px k))) eqn:E2; [discriminate|].
  cbn [orb] in H |- *.
  destruct (Nat.eq_dec i k) as [->|Hne].
  - rewrite back_subst_frame by (unfold v_cell; intros; lia).
    apply finite_of_checks; assumption.
  - apply IH; [assumption | lia].
Qed.

Lemma back_subst_no_zero_pivot (cnt : nat) :
  forall aug px h,
    (forall r, r < cnt -> lt (fabs (aug r r)) epsilon = false) ->
    snd (back_subst cnt aug px h) <> Some ZeroPivot.
Proof.
  induction cnt as [|k IH]; intros aug px h Hd; [discriminate|].
  rewrite back_subst_step, (Hd k) by lia.
  destruct (isnan _ || isinf _); [discriminate|].
  apply IH. intros r Hr. apply Hd. lia.
Qed.

End SolverFacts.

(** ** The builder: fallback and shape of the result *)

Section BuilderClaims.

Lemma solve_linear_system_ok (h : heap) (pA pb px : nat) :
  snd (solve_linear_system h pA pb px) =
  match snd (solve_status h pA pb px) with None => 1%Z | Some _ => 0%Z end.
Proof.
  unfold solve_linear_system. destruct (solve_status h pA pb px). reflexivity.
Qed.

Lemma solve_linear_system_heap (h : heap) (pA pb px : nat) :
  fst (solve_linear_system h pA pb px) = fst (solve_status h pA pb px).
Proof.
  unfold solve_linear_system. destruct (solve_status h pA pb px). reflexivity.
Qed.

(** The function as a cascade of its stages. *)
Lemma calculate_cases (s d : Corners) :
  calculate_perspective_transform (Some s) (Some d) =
  if any_nan s d then identity
  else match setup_system 4 0 s d frame with
       | None => identity
       | Some h =>
           let r := solve_linear_system h pA pb px in
           if Z.eqb (snd r) 0 then identity
           else if negb (solution_ok 8 0 (fst r)) then identity
           else if result_invalid (assemble (fst r)) then identity
           else assemble (fst r)
       end.
Proof.
  unfold calculate_perspective_transform.
  destruct (any_nan s d); [reflexivity|].
  destruct (setup_system 4 0 s d frame) as [h|]; [|reflexivity].
  destruct (solve_linear_system h pA pb px). reflexivity.
Qed.

Lemma stage_failure_identity (src dst : option Corners) :
  stage_failure src dst ->
  calculate_perspective_transform src dst = identity.
Proof.
  intros H. destruct H as [src dst [-> | ->] | s d [Hn | Hi] | s d h e Hs He
                          | s d h Hs Hd | s d h Hs Hr].
  - reflexivity.
  - destruct src; reflexivity.
  - rewrite calculate_cases, Hn. reflexivity.
  - rewrite calculate_cases, Hi. destruct (any_nan s d); reflexivity.
  - rewrite calculate_cases, Hs. cbv zeta.
    rewrite solve_linear_system_ok, He.
    destruct (any_nan s d); reflexivity.
  - rewrite calculate_cases, Hs. cbv zeta. rewrite Hd.
    destruct (any_nan s d); [reflexivity|].
    destruct (Z.eqb _ 0); reflexivity.
  - rewrite calculate_cases, Hs. cbv zeta. rewrite Hr.
    destruct (any_nan s d); [reflexivity|].
    destruct (Z.eqb _ 0); [reflexivity|].
    destruct (negb _); reflexivity.
Qed.

(** C1. Whatever the two arguments, the call yields a matrix (the
    function is total and its type has no error value), and as soon as
    one stage fails (null argument, NaN or infinite coordinate, solver
    failure, out-of-range solution, invalid assembled matrix) that
    matrix is the fixed identity. *)
Theorem failure_yields_identity (src dst : option Corners) :
  stage_failure src dst ->
  calculate_perspective_transform src dst = identity.
Proof.
  exact (stage_failure_identity src dst).
Qed.

Lemma failure_yields_identity_witness :
  stage_failure None (Some unit_square) /\
  calculate_perspective_transform None (Some unit_square) = identity.
Proof.
  assert (H : stage_failure None (Some unit_square))
    by (apply NullInput; left; reflexivity).
  split; [exact H | exact (failure_yields_identity None (Some unit_square) H)].
Defined.

(** When no stage fails, the result is the matrix assembled from the
    solver's output. *)
Lemma success_yields_solution (src dst : option Corners) :
  ~ stage_failure src dst ->
  exists s d h,
    src = Some s /\ dst = Some d /\
    setup_system 4 0 s d frame = Some h /\
    calculate_perspective_transform src dst =
      assemble (fst (solve_linear_system h pA pb px)).
Proof.
  intros H.
  destruct src as [s|]; [|exfalso; apply H; apply NullInput; left; reflexivity].
  destruct dst as [d|]; [|exfalso; apply H; apply NullInput; right; reflexivity].
  exists s, d. rewrite calculate_cases.
  destruct (any_nan s d) eqn:Hn;
    [exfalso; apply H; apply InvalidCoordinate; left; assumption|].
  destruct (setup_system 4 0 s d frame) as [h|] eqn:Hs;
    [|exfalso; apply H; apply InvalidCoordinate; right; assumption].
  exists h. repeat split. cbv zeta.
  rewrite solve_linear_system_ok.
  destruct (snd (solve_status h pA pb px)) as [e|] eqn:He;
    [exfalso; apply H; apply (SolverFailure s d h e); assumption|].
  cbn [Z.eqb].
  destruct (solution_ok 8 0 (fst (solve_linear_system h pA pb px))) eqn:Hd;
    [|exfalso; apply H; apply (DegenerateSolution s d h); assumption].
  cbn [negb].
  destruct (result_invalid (assemble (fst (solve_linear_system h pA pb px)))) eqn:Hr;
    [exfalso; apply H; apply (InvalidResultMatrix s d h); assumption|].
  reflexivity.
Qed.

(** C2. A returned matrix is the identity, or a validated solution:
    nine finite entries, [m22] exactly 1.0, and the eight free entries
    at most 1e6 in absolute value. *)
Theorem result_shape (src dst : option Corners) :
  calculate_perspective_transform src dst = identity \/
  validated (calculate_perspective_transform src dst).
Proof.
  destruct src as [s|]; [|left; reflexivity].
  destruct dst as [d|]; [|left; reflexivity].
  rewrite calculate_cases.
  destruct (any_nan s d); [left; reflexivity|].
  destruct (setup_system 4 0 s d frame) as [h|]; [|left; reflexivity].
  cbv zeta. destruct (Z.eqb _ 0); [left; reflexivity|].
  destruct (solution_ok 8 0 _) eqn:Hok; [|left; reflexivity].
  cbn [negb].
  destruct (result_invalid _); [left; reflexivity|].
  right.
  pose proof (solution_ok_spec 8 0 _ Hok) as Hx.
  set (h' := fst (solve_linear_system h pA pb px)) in *.
  assert (Hfin : forall k, k < 8 -> is_finite (h' (v_cell px k)) = true).
  { intros k Hk. destruct (Hx k) as (Hn & Hi & _); [lia|].
    apply finite_of_checks; assumption. }
  assert (Hle : forall k, k < 8 -> le (fabs (h' (v_cell px k))) bound_1e6 = true).
  { intros k Hk. destruct (Hx k) as (Hn & _ & Hg); [lia|].
    apply not_gt_le; [rewrite fabs_not_nan; assumption | reflexivity | assumption]. }
  unfold validated, entries, free_entries, assemble.
  cbn [m00 m01 m02 m10 m11 m12 m20 m21 m22].
  repeat split.
  - repeat (apply Forall_cons; [apply Hfin; lia|]).
    apply Forall_cons; [reflexivity | apply Forall_nil].
  - repeat (apply Forall_cons; [apply Hle; lia|]). apply Forall_nil.
Qed.

(** C3. A null source or destination pointer, a NaN coordinate or an
    infinite coordinate among the sixteen makes the call return exactly
    the identity matrix. *)
Theorem fallback_on_bad_input (src dst : option Corners) :
  src = None \/ dst = None \/
  (exists s d, src = Some s /\ dst = Some d /\
     Exists (fun v => isnan v = true \/ isinf v = true)
            (coordinates s ++ coordinates d)) ->
  calculate_perspective_transform src dst = identity.
Proof.
  intros H. apply stage_failure_identity.
  destruct H as [H | [H | (s & d & -> & -> & H)]].
  - apply NullInput. left. assumption.
  - apply NullInput. right. assumption.
  - apply InvalidCoordinate.
    apply Exists_exists in H as (v & Hin & [Hv | Hv]).
    + left. apply any_nan_spec. apply Exists_exists. exists v. split; assumption.
    + right. apply setup_system_None. apply any_inf_spec.
      apply Exists_exists. exists v. split; assumption.
Qed.

Lemma fallback_on_bad_input_witness :
  calculate_perspective_transform None (Some unit_square) = identity /\
  calculate_perspective_transform (Some unit_square) None = identity /\
  calculate_perspective_transform (Some unit_square) (Some nan_square) = identity /\
  calculate_perspective_transform (Some inf_square) (Some unit_square) = identity.
Proof.
  split; [|split; [|split]].
  - apply (fallback_on_bad_input None (Some unit_square)). left. reflexivity.
  - apply (fallback_on_bad_input (Some unit_square) None). right. left. reflexivity.
  - apply (fallback_on_bad_input (Some unit_square) (Some nan_square)).
    right. right. exists unit_square, nan_square.
    split; [reflexivity|]. split; [reflexivity|].
    apply Exists_exists. exists S754_nan. split; [|left; reflexivity].
    vm_compute. auto 20.
  - apply (fallback_on_bad_input (Some inf_square) (Some unit_square)).
    right. right. exists inf_square, unit_square.
    split; [reflexivity|]. split; [reflexivity|].
    apply Exists_exists. exists (S754_infinity true). split; [|right; reflexivity].
    vm_compute. auto 20.
Defined.

End BuilderClaims.

(** ** The builder: the linear system *)

Section SystemClaims.

Lemma binary_round_aux_negb (s : bool) (m e : Z) (l : location) :
  binary_round_aux prec emax (negb s) m e l =
  SFopp (binary_round_aux prec emax s m e l).
Proof.
  unfold binary_round_aux.
  destruct (shr_fexp prec emax m e l) as [mrs1 e1].
  destruct (shr_fexp prec emax _ e1 loc_Exact) as [mrs2 e2].
  destruct (shr_m mrs2); try reflexivity.
  destruct (Z.leb e2 (emax - prec)); reflexivity.
Qed.

(** The code's [-srcX * dstX] negates first; the product of the
    opposite is the opposite of the product. *)
Lemma mul_neg_l (a b : double) : mul (neg a) b = neg (mul a b).
Proof.
  unfold mul, neg.
  destruct a as [sa|sa| |sa ma ea], b as [sb|sb| |sb mb eb];
    try reflexivity;
    try (destruct sa, sb; reflexivity).
  cbn [SFmul SFopp].
  replace (xorb (negb sa) sb) with (negb (xorb sa sb)) by (destruct sa, sb; reflexivity).
  apply binary_round_aux_negb.
Qed.



End SystemClaims.

(** ** The solver *)

Section SolverClaims.

Lemma forward_elim_app (a b : nat) :
  forall i m,
    forward_elim (a + b) i m =
    match forward_elim a i m with
    | None => None
    | Some m' => forward_elim b (i + a) m'
    end.
Proof.
  induction a as [|a IH]; intros i m.
  - cbn [Nat.add forward_elim]. rewrite Nat.add_0_r. reflexivity.
  - cbn [Nat.add forward_elim].
    destruct (pivot_step i m) as [m1|]; [|reflexivity].
    rewrite IH. replace (S i + a) with (i + S a) by lia. reflexivity.
Qed.

(** A round that finds no pivot ends the call with 0, at the
    [SingularMatrix] site, and leaves the store as it was. *)
Lemma singular_reported (h : heap) (pA pb px i : nat) (aug : matrix) :
  i < n ->
  forward_elim i 0 (init_aug h pA pb) = Some aug ->
  pivot_step i aug = None ->
  solve_status h pA pb px = (h, Some SingularMatrix) /\
  solve_linear_system h pA pb px = (h, 0%Z).
Proof.
  intros Hi Hreach Hstep.
  assert (E : forward_elim n 0 (init_aug h pA pb) = None).
  { replace n with (i + S (n - i - 1)) by lia.
    rewrite forward_elim_app, Hreach. cbn [forward_elim Nat.add].
    rewrite Hstep. reflexivity. }
  unfold solve_linear_system, solve_status. rewrite E. split; reflexivity.
Qed.

Lemma pivoted_spec (i : nat) (aug : matrix) (r c : nat) :
  pivoted i aug r c =
  if c <=? n then
    if r =? fst (find_pivot i aug) then aug i c
    else if r =? i then aug (fst (find_pivot i aug)) c
    else aug r c
  else aug r c.
Proof.
  unfold pivoted.
  destruct (Nat.eqb_spec (fst (find_pivot i aug)) i) as [E|E].
  - rewrite E. destruct (c <=? n); [|reflexivity].
    destruct (Nat.eqb_spec r i) as [->|]; reflexivity.
  - apply swap_rows_spec.
Qed.





(** C9. When [solve_linear_system] returns 1, the eight entries of [x]
    are finite, whatever the store and the three pointers. *)
Theorem solution_finite (h : heap) (pA pb px : nat) :
  snd (solve_linear_system h pA pb px) = 1%Z ->
  forall i, i < 8 ->
    is_finite (fst (solve_linear_system h pA pb px) (v_cell px i)) = true.
Proof.
  rewrite solve_linear_system_ok, solve_linear_system_heap.
  unfold solve_status.
  destruct (forward_elim n 0 (init_aug h pA pb)) as [aug|]; [|discriminate].
  intros H i Hi. apply back_subst_finite; [|assumption].
  destruct (snd (back_subst n aug px h)); [discriminate | reflexivity].
Qed.

Lemma solution_finite_witness :
  is_finite
    (fst (solve_linear_system (system_of unit_square double_square) pA pb px)
       (v_cell px 0)) = true.
Proof.
  apply (solution_finite (system_of unit_square double_square) pA pb px).
  - vm_compute. reflexivity.
  - lia.
Defined.

(** The solver writes into the eight cells of [x] and nowhere else. *)
Lemma solver_writes_x_only (h : heap) (pA pb px a : nat) :
  (forall k, k < 8 -> a <> v_cell px k) ->
  fst (solve_linear_system h pA pb px) a = h a.
Proof.
  intros Ha. rewrite solve_linear_system_heap. unfold solve_status.
  destruct (forward_elim n 0 (init_aug h pA pb)); [|reflexivity].
  apply back_subst_frame. exact Ha.
Qed.

(** C10, amended. Provided the output buffer [x] overlaps neither [A]
    nor [b], the call leaves [A] and [b] as they were, whether it
    succeeds or fails: the elimination works on the private [aug]. *)
Theorem inputs_preserved (h : heap) (pA pb px : nat) :
  (forall i j k, i < 8 -> j < 8 -> k < 8 -> A_cell pA i j <> v_cell px k) ->
  (forall i k, i < 8 -> k < 8 -> v_cell pb i <> v_cell px k) ->
  (forall i j, i < 8 -> j < 8 ->
     fst (solve_linear_system h pA pb px) (A_cell pA i j) = h (A_cell pA i j)) /\
  (forall i, i < 8 ->
     fst (solve_linear_system h pA pb px) (v_cell pb i) = h (v_cell pb i)).
Proof.
  intros HA Hb. split.
  - intros i j Hi Hj. apply solver_writes_x_only. intros k Hk. apply HA; assumption.
  - intros i Hi. apply solver_writes_x_only. intros k Hk. apply Hb; assumption.
Qed.

Lemma inputs_preserved_witness :
  fst (solve_linear_system two_identity_heap 0 64 72) (v_cell 64 0) =
  two_identity_heap (v_cell 64 0).
Proof.
  refine (proj2 (inputs_preserved two_identity_heap 0 64 72 _ _) 0 _).
  - unfold A_cell, v_cell. lia.
  - unfold v_cell. lia.
  - lia.
Defined.

(** C10 as stated fails when the caller passes [b] itself as [x]: with
    [A = 2 I] and [b = (2, ..., 2)] the call succeeds and [b[0]] is 1
    afterwards. *)
Lemma aliased_output_overwrites_b :
  snd (solve_linear_system two_identity_heap 0 64 64) = 1%Z /\
  two_identity_heap (v_cell 64 0) = two /\
  fst (solve_linear_system two_identity_heap 0 64 64) (v_cell 64 0) = one /\
  fst (solve_linear_system two_identity_heap 0 64 64) (v_cell 64 0)
    <> two_identity_heap (v_cell 64 0).
Proof.
  split; [vm_compute; reflexivity|].
  split; [vm_compute; reflexivity|].
  split; [vm_compute; reflexivity|].
  vm_compute. discriminate.
Qed.

(** C7, amended. The [ZeroPivot] site is unreachable: once the forward
    elimination has completed, no diagonal entry satisfies
    [|aug[i][i]| < epsilon]; each is NaN or at least [epsilon] in
    absolute value. *)
Theorem zero_pivot_unreachable (h : heap) (pA pb px : nat) :
  snd (solve_status h pA pb px) <> Some ZeroPivot /\
  forall aug,
    forward_elim n 0 (init_aug h pA pb) = Some aug ->
    forall i, i < n ->
      lt (fabs (aug i i)) epsilon = false /\
      (isnan (aug i i) = true \/ le epsilon (fabs (aug i i)) = true).
Proof.
  assert (Hd : forall aug,
             forward_elim n 0 (init_aug h pA pb) = Some aug ->
             forall i, i < n -> lt (fabs (aug i i)) epsilon = false).
  { intros aug H i Hi.
    apply forward_elim_diag in H as (_ & H); [|lia]. apply H. lia. }
  split.
  - unfold solve_status.
    destruct (forward_elim n 0 (init_aug h pA pb)) as [aug|] eqn:E; [|discriminate].
    apply back_subst_no_zero_pivot. apply Hd. reflexivity.
  - intros aug H i Hi. split; [apply Hd; assumption|].
    destruct (isnan (aug i i)) eqn:En; [left; reflexivity | right].
    apply not_gt_le; [reflexivity | rewrite fabs_not_nan; assumption |].
    apply Hd; assumption.
Qed.

Lemma zero_pivot_unreachable_witness :
  exists aug,
    forward_elim n 0 (init_aug (system_of unit_square double_square) pA pb) = Some aug /\
    lt (fabs (aug 7 7)) epsilon = false.
Proof.
  destruct (forward_elim n 0 (init_aug (system_of unit_square double_square) pA pb))
    as [aug|] eqn:E.
  - exists aug. split; [reflexivity|].
    refine (proj1 (proj2 (zero_pivot_unreachable
              (system_of unit_square double_square) pA pb px) aug E 7 _)).
    unfold n. lia.
  - exfalso. vm_compute in E. discriminate E.
Defined.

(** C7 as stated fails: for the square of side 10^200 mapped to
    itself (finite coordinates), the products [-sx * dx] overflow, the
    elimination completes, and the first diagonal entry that
    back-substitution checks, [aug[7][7]], is NaN: it is not at least
    [epsilon], although the test [|aug[7][7]| < epsilon] is false too. *)
Lemma nan_pivot_after_elimination :
  setup_system 4 0 (square huge) (square huge) frame <> None /\
  match forward_elim n 0 (init_aug (system_of (square huge) (square huge)) pA pb) with
  | Some aug =>
      aug 7 7 = S754_nan /\
      le epsilon (fabs (aug 7 7)) = false /\
      lt (fabs (aug 7 7)) epsilon = false
  | None => False
  end.
Proof.
  split; [vm_compute; discriminate|].
  vm_compute. repeat split.
Qed.

End SolverClaims.

(** ** Concrete scenarios *)

Section Scenarios.

Lemma is_finite_checks (a : double) :
  is_finite a = true -> isnan a = false /\ isinf a = false.
Proof. destruct a; simpl; intros; split; congruence. Qed.

(** C6. The collinear source corners (0,0), (1,0), (2,0), (3,0), with any
    destination whose eight coordinates are finite: the system is set
    up, the solver fails at the [SingularMatrix] site (column 1 has no
    pivot), and the identity matrix is returned. *)
Theorem collinear_gives_identity (d : Corners) :
  Forall (fun v => is_finite v = true) (coordinates d) ->
  (exists h, setup_system 4 0 collinear d frame = Some h /\
             solve_status h pA pb px = (h, Some SingularMatrix)) /\
  calculate_perspective_transform (Some collinear) (Some d) = identity.
Proof.
  destruct d as [a0 a1 a2 a3 a4 a5 a6 a7].
  unfold coordinates; cbn [tl_x tl_y tr_x tr_y br_x br_y bl_x bl_y].
  intros H.
  repeat match goal with
         | H : Forall _ (_ :: _) |- _ =>
             let H1 := fresh "F" in
             let H2 := fresh "F" in
             apply Forall_cons_iff in H as [H1 H2];
             apply is_finite_checks in H1 as [? ?]
         end.
  assert (Hn : any_nan collinear (mkCorners a0 a1 a2 a3 a4 a5 a6 a7) = false).
  { unfold any_nan. cbn.
    repeat match goal with H : isnan _ = false |- _ => rewrite H; clear H end.
    reflexivity. }
  unfold calculate_perspective_transform. rewrite Hn.
  rewrite !setup_system_step.
  unfold corner_inf.
  cbn [corner fst snd collinear tl_x tl_y tr_x tr_y br_x br_y bl_x bl_y].
  repeat match goal with H : isinf _ = false |- _ => rewrite H; clear H end.
  cbn [isinf zero one two three orb setup_system].
  split.
  - eexists. split; [reflexivity|]. lazy. reflexivity.
  - lazy. reflexivity.
Qed.

Lemma collinear_gives_identity_witness :
  calculate_perspective_transform (Some collinear) (Some double_square) = identity.
Proof.
  refine (proj2 (collinear_gives_identity double_square _)).
  repeat (apply Forall_cons; [reflexivity|]). apply Forall_nil.
Defined.

(** C8. The unit square mapped to the square of side 2: the returned
    matrix has [m00] and [m11] within 1e-9 of 2, the six other free
    entries within 1e-9 of 0, and [m22] equal to 1; in binary64 the
    computation is in fact exact. *)
Theorem scale_by_two :
  let r := calculate_perspective_transform (Some unit_square) (Some double_square) in
  (approx (m00 r) two /\ approx (m01 r) zero /\ approx (m02 r) zero /\
   approx (m10 r) zero /\ approx (m11 r) two /\ approx (m12 r) zero /\
   approx (m20 r) zero /\ approx (m21 r) zero /\ m22 r = one) /\
  r = mkMatrix two zero zero zero two zero zero zero one.
Proof.
  vm_compute. repeat split.
Qed.

End Scenarios.

(** ** Further properties of the solver *)

Section SolverIndependence.

(** Relational rule for two runs of the counted loop. *)
Lemma for_loop_rel {S1 S2 : Type} (R : S1 -> S2 -> Prop)
      (body1 : nat -> S1 -> S1) (body2 : nat -> S2 -> S2) :
  forall cnt k s t,
    R s t ->
    (forall j u v, k <= j < k + cnt -> R u v -> R (body1 j u) (body2 j v)) ->
    R (for_loop cnt k body1 s) (for_loop cnt k body2 t).
Proof.
  induction cnt as [|c IH]; intros k s t H0 Hstep; simpl; [assumption|].
  apply IH.
  - apply Hstep; [lia | assumption].
  - intros j u v Hj. apply Hstep. lia.
Qed.

Lemma mset_same_entries (a b : matrix) (i j : nat) (v : double) :
  same_entries a b -> same_entries (mset a i j v) (mset b i j v).
Proof.
  intros H r c. unfold mset. rewrite (H r c). reflexivity.
Qed.

Lemma init_aug_same (pA pb : nat) (h1 h2 : heap) :
  same_system pA pb h1 h2 ->
  same_entries (init_aug h1 pA pb) (init_aug h2 pA pb).
Proof.
  intros (HA & Hb). unfold init_aug.
  apply (for_loop_rel same_entries).
  - intros r c. reflexivity.
  - intros i u v Hi Huv. cbv zeta.
    rewrite (Hb i) by (unfold n in Hi; lia).
    apply mset_same_entries.
    apply (for_loop_rel same_entries); [assumption|].
    intros j u' v' Hj Huv'.
    rewrite (HA i j) by (unfold n in *; lia).
    apply mset_same_entries. assumption.
Qed.

Lemma find_pivot_same (i : nat) (a b : matrix) :
  same_entries a b -> find_pivot i a = find_pivot i b.
Proof.
  intros H. unfold find_pivot. rewrite (H i i).
  apply (for_loop_rel eq); [reflexivity|].
  intros j u v _ <-. destruct u as [mr mv]. rewrite (H j i). reflexivity.
Qed.

Lemma swap_rows_same (i max_row : nat) (a b : matrix) :
  same_entries a b -> same_entries (swap_rows i max_row a) (swap_rows i max_row b).
Proof.
  intros H. unfold swap_rows.
  apply (for_loop_rel same_entries); [assumption|].
  intros j u v _ Huv. cbv zeta.
  rewrite (Huv i j), (Huv max_row j).
  apply mset_same_entries, mset_same_entries. assumption.
Qed.

Lemma eliminate_same (i : nat) (a b : matrix) :
  same_entries a b -> same_entries (eliminate i a) (eliminate i b).
Proof.
  intros H. unfold eliminate.
  apply (for_loop_rel same_entries); [assumption|].
  intros j u v _ Huv. cbv zeta.
  rewrite (Huv j i), (Huv i i).
  apply (for_loop_rel same_entries); [assumption|].
  intros k u' v' _ Huv'.
  rewrite (Huv' j k), (Huv' i k).
  apply mset_same_entries. assumption.
Qed.

Lemma pivot_step_same (i : nat) (a b : matrix) :
  same_entries a b -> same_outcome (pivot_step i a) (pivot_step i b).
Proof.
  intros H. unfold pivot_step. rewrite (find_pivot_same i a b H).
  destruct (find_pivot i b) as [mr mv].
  destruct (lt mv epsilon); [exact I|].
  cbn [same_outcome]. apply eliminate_same.
  destruct (Nat.eqb mr i); [assumption | apply swap_rows_same; assumption].
Qed.

Lemma forward_elim_same (cnt : nat) :
  forall i a b,
    same_entries a b -> same_outcome (forward_elim cnt i a) (forward_elim cnt i b).
Proof.
  induction cnt as [|c IH]; intros i a b H; cbn [forward_elim]; [exact H|].
  pose proof (pivot_step_same i a b H) as Hs.
  destruct (pivot_step i a) as [a1|], (pivot_step i b) as [b1|];
    cbn [same_outcome] in Hs; try contradiction; [|exact I].
  apply IH. assumption.
Qed.

Lemma v_cell_inj (px i j : nat) : v_cell px i = v_cell px j -> i = j.
Proof. unfold v_cell. lia. Qed.

Lemma solve_row_same (i : nat) (a b : matrix) (px : nat) (h1 h2 : heap) :
  i < n ->
  same_entries a b -> same_tail px (S i) h1 h2 ->
  same_tail px i (solve_row i a px h1) (solve_row i b px h2).
Proof.
  intros Hi Hab Ht. unfold solve_row. cbv zeta.
  assert (Hloop : same_tail px i
            (for_loop (n - (i + 1)) (i + 1)
               (fun j h => store h (v_cell px i)
                  (sub (h (v_cell px i)) (mul (a i j) (h (v_cell px j)))))
               (store h1 (v_cell px i) (a i n)))
            (for_loop (n - (i + 1)) (i + 1)
               (fun j h => store h (v_cell px i)
                  (sub (h (v_cell px i)) (mul (b i j) (h (v_cell px j)))))
               (store h2 (v_cell px i) (b i n)))).
  { apply (for_loop_rel (same_tail px i)).
    - intros j Hj. destruct (Nat.eq_dec j i) as [->|Hne].
      + rewrite !store_eq. apply Hab.
      + rewrite !store_neq by (intros E; apply v_cell_inj in E; lia).
        apply Ht. lia.
    - intros j u v Hj Huv k Hk.
      destruct (Nat.eq_dec k i) as [->|Hne].
      + rewrite !store_eq. rewrite (Huv i), (Huv j), (Hab i j) by lia. reflexivity.
      + rewrite !store_neq by (intros E; apply v_cell_inj in E; lia).
        apply Huv. assumption. }
  intros k Hk. destruct (Nat.eq_dec k i) as [->|Hne].
  - rewrite !store_eq. rewrite (Hloop i), (Hab i i) by lia. reflexivity.
  - rewrite !store_neq by (intros E; apply v_cell_inj in E; lia).
    apply Hloop. assumption.
Qed.

Lemma back_subst_same (cnt : nat) :
  forall a b px h1 h2,
    cnt <= n ->
    same_entries a b -> same_tail px cnt h1 h2 ->
    snd (back_subst cnt a px h1) = snd (back_subst cnt b px h2) /\
    (snd (back_subst cnt a px h1) = None ->
     same_tail px 0 (fst (back_subst cnt a px h1)) (fst (back_subst cnt b px h2))).
Proof.
  induction cnt as [|i IH]; intros a b px h1 h2 Hc Hab Ht.
  - split; [reflexivity | intros _; exact Ht].
  - rewrite !back_subst_step. rewrite <- (Hab i i).
    destruct (lt (fabs (a i i)) epsilon); [split; [reflexivity | discriminate]|].
    pose proof (solve_row_same i a b px h1 h2 Hc Hab Ht) as Hrow.
    rewrite <- (Hrow i) by lia.
    destruct (isnan _ || isinf _); [split; [reflexivity | discriminate]|].
    apply IH; [lia | assumption | assumption].
Qed.

(** X1. The value returned by the solver depends on the contents of [A]
    and [b] only, and so does the solution it writes when it returns 1:
    neither the previous contents of [x] nor any other cell matter. *)
Theorem solver_reads_system_only (h1 h2 : heap) (pA pb px : nat) :
  same_system pA pb h1 h2 ->
  snd (solve_linear_system h1 pA pb px) = snd (solve_linear_system h2 pA pb px) /\
  (snd (solve_linear_system h1 pA pb px) = 1%Z ->
   forall i, i < 8 ->
     fst (solve_linear_system h1 pA pb px) (v_cell px i) =
     fst (solve_linear_system h2 pA pb px) (v_cell px i)).
Proof.
  intros Hsys.
  rewrite !solve_linear_system_ok, !solve_linear_system_heap.
  unfold solve_status.
  pose proof (forward_elim_same n 0 _ _ (init_aug_same pA pb h1 h2 Hsys)) as Hf.
  destruct (forward_elim n 0 (init_aug h1 pA pb)) as [a|],
           (forward_elim n 0 (init_aug h2 pA pb)) as [b|];
    cbn [same_outcome] in Hf; try contradiction;
    [|split; [reflexivity | discriminate]].
  destruct (back_subst_same n a b px h1 h2 (le_n n) Hf) as (Hs & Hx).
  { intros j Hj. lia. }
  rewrite <- Hs. split; [reflexivity|].
  intros Hok i Hi. apply Hx; [|unfold n; lia].
  destruct (snd (back_subst n a px h1)); [discriminate | reflexivity].
Qed.

Lemma solver_reads_system_only_witness :
  snd (solve_linear_system (system_of unit_square double_square) pA pb px) =
  snd (solve_linear_system
         (store (system_of unit_square double_square) (v_cell px 3) huge) pA pb px).
Proof.
  refine (proj1 (solver_reads_system_only
                   (system_of unit_square double_square)
                   (store (system_of unit_square double_square) (v_cell px 3) huge)
                   pA pb px _)).
  split.
  - intros i j Hi Hj. symmetry. apply store_neq.
    unfold A_cell, v_cell, pA, px. lia.
  - intros i Hi. symmetry. apply store_neq.
    unfold v_cell, pb, px. lia.
Defined.

End SolverIndependence.

Section SolverBuffer.

Lemma pivot_step_outside (i : nat) (aug aug' : matrix) (r c : nat) :
  i < n -> pivot_step i aug = Some aug' ->
  n <= r \/ n < c -> aug' r c = aug r c.
Proof.
  intros Hi. rewrite pivot_step_eq.
  destruct (lt (snd (find_pivot i aug)) epsilon); [discriminate|].
  intros [= <-] Hout.
  pose proof (find_pivot_spec i aug Hi) as (Hrow & _).
  rewrite eliminate_spec by assumption.
  rewrite pivoted_spec.
  destruct Hout as [Hr | Hc].
  - replace (r <? n) with false by (symmetry; apply Nat.ltb_ge; lia).
    rewrite andb_false_r. cbn [andb].
    destruct (Nat.eqb_spec r (fst (find_pivot i aug))); [lia|].
    destruct (Nat.eqb_spec r i); [lia|].
    destruct (c <=? n); reflexivity.
  - replace (c <=? n) with false by (symmetry; apply Nat.leb_gt; lia).
    rewrite andb_false_r. reflexivity.
Qed.

(** X2. The elimination writes inside rows 0 to 7 and columns 0 to 8 of
    [aug] only: every other entry, in particular the spare column 9 of
    the [8][10] buffer, is left as it was. *)
Theorem elimination_stays_in_buffer (cnt : nat) :
  forall i aug aug',
    i + cnt <= n ->
    forward_elim cnt i aug = Some aug' ->
    forall r c, n <= r \/ n < c -> aug' r c = aug r c.
Proof.
  induction cnt as [|k IH]; intros i aug aug' Hb H r c Hout.
  - injection H as <-. reflexivity.
  - cbn [forward_elim] in H.
    destruct (pivot_step i aug) as [aug1|] eqn:E; [|discriminate].
    rewrite (IH (S i) aug1 aug') by (assumption || lia).
    apply (pivot_step_outside i aug aug1); [lia | assumption | assumption].
Qed.

Lemma elimination_stays_in_buffer_witness :
  exists aug',
    forward_elim n 0 (init_aug (system_of unit_square double_square) pA pb) = Some aug' /\
    aug' 3 9 = init_aug (system_of unit_square double_square) pA pb 3 9.
Proof.
  destruct (forward_elim n 0 (init_aug (system_of unit_square double_square) pA pb))
    as [aug'|] eqn:E.
  - exists aug'. split; [reflexivity|].
    apply (elimination_stays_in_buffer n 0 _ aug'); [lia | exact E |].
    right. unfold n. lia.
  - exfalso. vm_compute in E. discriminate E.
Defined.

(** X3. When the elimination completes, row [i] of the triangular system
    is the row that round [i] selected as its pivot row, exactly as it
    was at the start of that round: later rounds never touch it. *)
Theorem pivot_row_is_final (aug0 aug_i aug' : matrix) (i : nat) :
  i < n ->
  forward_elim i 0 aug0 = Some aug_i ->
  forward_elim n 0 aug0 = Some aug' ->
  forall c, c <= n -> aug' i c = aug_i (fst (find_pivot i aug_i)) c.
Proof.
  intros Hi Hreach Hall c Hc.
  replace n with (i + S (n - i - 1)) in Hall by lia.
  rewrite forward_elim_app, Hreach in Hall.
  cbn [forward_elim Nat.add] in Hall.
  destruct (pivot_step i aug_i) as [aug1|] eqn:E; [|discriminate].
  apply forward_elim_diag in Hall as (Hkeep & _); [|lia].
  rewrite Hkeep by lia.
  rewrite pivot_step_eq in E.
  destruct (lt (snd (find_pivot i aug_i)) epsilon); [discriminate|].
  injection E as <-.
  rewrite eliminate_upto by lia.
  apply pivoted_row_i; assumption.
Qed.

Lemma pivot_row_is_final_witness :
  exists aug',
    forward_elim n 0 (init_aug (system_of unit_square double_square) pA pb) = Some aug' /\
    aug' 0 8 = init_aug (system_of unit_square double_square) pA pb 1 8.
Proof.
  destruct (forward_elim n 0 (init_aug (system_of unit_square double_square) pA pb))
    as [aug'|] eqn:E.
  - exists aug'. split; [reflexivity|].
    apply (pivot_row_is_final
             (init_aug (system_of unit_square double_square) pA pb)
             (init_aug (system_of unit_square double_square) pA pb) aug' 0).
    + unfold n. lia.
    + reflexivity.
    + exact E.
    + unfold n. lia.
  - exfalso. vm_compute in E. discriminate E.
Defined.

End SolverBuffer.

Section PivotTies.

Lemma SFcompare_Eq_l (a m x : double) :
  SFcompare a m = Some Eq -> SFcompare a x = SFcompare m x.
Proof.
  destruct a as [sa|sa| |sa ma ea], m as [sm|sm| |sm mm em];
    try rewrite !SFcompare_finite; simpl;
    repeat match goal with s : bool |- _ => destruct s end;
    try discriminate; try reflexivity;
    try (destruct x; reflexivity).
  - intros H.
    assert (E : lex ea ma em mm = Eq)
      by (destruct (lex ea ma em mm); simpl in H; congruence).
    unfold lex in E. destruct (Z.compare_spec ea em); try discriminate.
    apply Pos.compare_eq in E. subst. reflexivity.
  - intros H.
    assert (E : lex ea ma em mm = Eq) by congruence.
    unfold lex in E. destruct (Z.compare_spec ea em); try discriminate.
    apply Pos.compare_eq in E. subst. reflexivity.
Qed.

Lemma le_lt_trans (a m b : double) :
  le a m = true -> lt m b = true -> lt a b = true.
Proof.
  unfold le, SFleb. intros Hle Hlt.
  destruct (SFcompare a m) as [[]|] eqn:E; try discriminate.
  - unfold lt, SFltb in *. rewrite (SFcompare_Eq_l a m b E). assumption.
  - apply lt_trans with (b := m); [|assumption].
    unfold lt, SFltb. rewrite E. reflexivity.
Qed.

(** X4. Ties go to the first row: every row from [i] up to, but not
    including, the selected row is strictly smaller in absolute value
    than the selected one, or holds a NaN in column [i].  In particular
    a row is exchanged only for a strictly larger one. *)
Theorem pivot_is_first_maximum (i : nat) (aug : matrix) :
  i < n ->
  forall k, i <= k < fst (find_pivot i aug) ->
    isnan (aug k i) = true \/
    lt (fabs (aug k i)) (snd (find_pivot i aug)) = true.
Proof.
  intros Hi. unfold find_pivot.
  pose (P := fun (k : nat) (r : nat * double) =>
               i <= fst r < k /\ snd r = fabs (aug (fst r) i) /\
               (forall k', i <= k' < k -> gt (fabs (aug k' i)) (snd r) = false) /\
               (forall k', i <= k' < fst r ->
                  isnan (aug k' i) = true \/ lt (fabs (aug k' i)) (snd r) = true)).
  assert (H : P (i + 1 + (n - (i + 1)))
                (for_loop (n - (i + 1)) (i + 1)
                   (fun (k : nat) '(max_row, max_val) =>
                      if gt (fabs (aug k i)) max_val
                      then (k, fabs (aug k i)) else (max_row, max_val))
                   (i, fabs (aug i i)))).
  { apply for_loop_inv.
    - unfold P; simpl. split; [lia|]. split; [reflexivity|]. split.
      + intros k' Hk'. replace k' with i by lia. apply lt_irrefl.
      + intros k' Hk'. lia.
    - intros j [mr mv] Hj (Hr & Hv & Hmax & Hfirst). unfold P. simpl in *.
      destruct (gt (fabs (aug j i)) mv) eqn:E; simpl.
      + split; [lia|]. split; [reflexivity|]. split.
        * intros k' Hk'. destruct (Nat.eq_dec k' j) as [->|Hne].
          -- apply lt_irrefl.
          -- apply gt_trans_false with (m := mv); [apply Hmax; lia | assumption].
        * intros k' Hk'.
          destruct (isnan (aug k' i)) eqn:En; [left; reflexivity | right].
          apply le_lt_trans with (m := mv); [|exact E].
          apply not_gt_le.
          -- rewrite fabs_not_nan. assumption.
          -- unfold gt, SFltb in E. destruct mv; try reflexivity.
             simpl in E. destruct (fabs (aug j i)); discriminate.
          -- apply Hmax. lia.
      + split; [lia|]. split; [assumption|]. split; [|assumption].
        intros k' Hk'. destruct (Nat.eq_dec k' j) as [->|Hne];
          [assumption | apply Hmax; lia]. }
  destruct H as (_ & _ & _ & H). exact H.
Qed.

Lemma pivot_is_first_maximum_witness :
  isnan (init_aug (system_of unit_square double_square) pA pb 0 0) = true \/
  lt (fabs (init_aug (system_of unit_square double_square) pA pb 0 0))
     (snd (find_pivot 0 (init_aug (system_of unit_square double_square) pA pb))) = true.
Proof.
  apply (pivot_is_first_maximum 0
           (init_aug (system_of unit_square double_square) pA pb)).
  - unfold n. lia.
  - vm_compute. split; [apply le_n | apply le_n].
Defined.

End PivotTies.

Section SolverRejects.

(** X12. A system whose first column is negligible (every [|A[k][0]|]
    below [epsilon], as for the zero matrix) is rejected in round 0: the
    call returns 0 and has written nothing, [x] included. *)
Theorem negligible_first_column_rejected (h : heap) (pA pb px : nat) :
  (forall k, k < 8 -> lt (fabs (h (A_cell pA k 0))) epsilon = true) ->
  solve_linear_system h pA pb px = (h, 0%Z).
Proof.
  intros Hcol.
  apply (singular_reported h pA pb px 0 (init_aug h pA pb)).
  - unfold n. lia.
  - reflexivity.
  - rewrite pivot_step_eq.
    pose proof (find_pivot_spec 0 (init_aug h pA pb) ltac:(unfold n; lia))
      as (Hrow & Hval & _).
    rewrite Hval.
    destruct (init_aug_spec h pA pb (fst (find_pivot 0 (init_aug h pA pb))))
      as (HA & _); [lia|].
    rewrite HA by (unfold n; lia).
    rewrite Hcol by (unfold n in Hrow; lia). reflexivity.
Qed.

Lemma negligible_first_column_rejected_witness :
  solve_linear_system frame 0 64 72 = (frame, 0%Z).
Proof.
  apply (negligible_first_column_rejected frame 0 64 72).
  intros k Hk. reflexivity.
Defined.

End SolverRejects.

(** ** Further properties of the builder *)

Section Rounding.

Lemma shr_1_nonneg (mrs : shr_record) :
  (0 <= shr_m mrs)%Z -> (0 <= shr_m (shr_1 mrs))%Z.
Proof.
  destruct mrs as [m r s]. simpl.
  destruct m as [|p|p]; [simpl; lia | | lia].
  intros _. destruct p; simpl; lia.
Qed.

Lemma iter_shr_1_nonneg (p : positive) :
  forall mrs, (0 <= shr_m mrs)%Z -> (0 <= shr_m (iter_pos shr_1 p mrs))%Z.
Proof.
  induction p as [p IH|p IH|]; intros mrs H; simpl.
  - apply IH, IH, shr_1_nonneg, H.
  - apply IH, IH, H.
  - apply shr_1_nonneg, H.
Qed.

Lemma shr_fexp_nonneg (m e : Z) (l : location) :
  (0 <= m)%Z -> (0 <= shr_m (fst (shr_fexp prec emax m e l)))%Z.
Proof.
  intros H. unfold shr_fexp, shr.
  assert (H0 : (0 <= shr_m (shr_record_of_loc m l))%Z)
    by (destruct l as [|[]]; exact H).
  destruct (_ - e)%Z; try exact H0.
  cbn [fst]. apply iter_shr_1_nonneg, H0.
Qed.

Lemma round_nearest_even_nonneg (m : Z) (l : location) :
  (0 <= m)%Z -> (0 <= round_nearest_even m l)%Z.
Proof.
  intros H. unfold round_nearest_even.
  destruct l as [|[]]; try lia. destruct (Z.even m); lia.
Qed.

(** Rounding a non-negative mantissa gives a zero, a finite value or an
    infinity of the requested sign: never NaN. *)
Lemma binary_round_aux_sign (s : bool) (m e : Z) (l : location) :
  (0 <= m)%Z ->
  isnan (binary_round_aux prec emax s m e l) = false /\
  is_negative (binary_round_aux prec emax s m e l) = s.
Proof.
  intros H. unfold binary_round_aux.
  pose proof (shr_fexp_nonneg m e l H) as H1.
  destruct (shr_fexp prec emax m e l) as [mrs1 e1]. cbn [fst] in H1.
  pose proof (shr_fexp_nonneg _ e1 loc_Exact
                (round_nearest_even_nonneg _ (loc_of_shr_record mrs1) H1)) as H2.
  destruct (shr_fexp prec emax _ e1 loc_Exact) as [mrs2 e2]. cbn [fst] in H2.
  destruct (shr_m mrs2); [split; reflexivity | | lia].
  destruct (Z.leb e2 (emax - prec)); split; reflexivity.
Qed.

Lemma mul_finite_not_nan (a b : double) :
  is_finite a = true -> is_finite b = true -> isnan (mul a b) = false.
Proof.
  destruct a as [sa|sa| |sa ma ea], b as [sb|sb| |sb mb eb];
    try discriminate; try reflexivity.
  intros _ _. unfold mul. cbn [SFmul].
  apply binary_round_aux_sign. lia.
Qed.

End Rounding.

Section BuilderFacts.

Lemma write_rows_frame (i : nat) (srcX srcY dstX dstY : double) (h : heap) (a : nat) :
  i < 4 -> 72 <= a -> write_rows i srcX srcY dstX dstY h a = h a.
Proof.
  intros Hi Ha. unfold write_rows. cbv zeta.
  rewrite !store_neq; try reflexivity;
    unfold A_cell, v_cell, pA, pb; lia.
Qed.

(** X5. The set-up loop writes inside [A] and [b] only: every other cell
    of the frame, [x] included, keeps its value, so the solver starts
    from the zero-initialised [x]. *)
Theorem setup_writes_system_only (cnt : nat) :
  forall i s d h h',
    i + cnt <= 4 ->
    setup_system cnt i s d h = Some h' ->
    forall a, 72 <= a -> h' a = h a.
Proof.
  induction cnt as [|c IH]; intros i s d h h' Hb H a Ha.
  - injection H as <-. reflexivity.
  - rewrite setup_system_step in H.
    destruct (corner_inf i s d); [discriminate|].
    rewrite (IH (S i) s d _ h' ltac:(lia) H a Ha).
    apply write_rows_frame; [lia | assumption].
Qed.

Lemma setup_writes_system_only_witness :
  system_of unit_square double_square (v_cell px 0) = frame (v_cell px 0).
Proof.
  apply (setup_writes_system_only 4 0 unit_square double_square frame
           (system_of unit_square double_square)).
  - lia.
  - reflexivity.
  - unfold v_cell, px. lia.
Defined.

Lemma corner_finite (i : nat) (s d : Corners) :
  i < 4 -> any_nan s d = false -> corner_inf i s d = false ->
  is_finite (fst (corner i s)) = true /\ is_finite (snd (corner i s)) = true /\
  is_finite (fst (corner i d)) = true /\ is_finite (snd (corner i d)) = true.
Proof.
  intros Hi Hn Hf. unfold any_nan in Hn. unfold corner_inf in Hf.
  repeat (apply orb_false_iff in Hn; destruct Hn as [Hn ?]).
  repeat (apply orb_false_iff in Hf; destruct Hf as [Hf ?]).
  destruct i as [|[|[|[|i]]]]; try lia; cbn [corner fst snd] in *;
    repeat split; apply finite_of_checks; assumption.
Qed.

Lemma is_finite_not_nan (a : double) : is_finite a = true -> isnan a = false.
Proof. destruct a; simpl; congruence. Qed.

Lemma neg_finite (a : double) : is_finite (neg a) = is_finite a.
Proof. destruct a; reflexivity. Qed.

(** X6. For corners that pass the NaN and infinity checks, the system
    handed to the solver holds no NaN: its entries are coordinates, 0, 1
    and products of two finite values, which may overflow to an infinity
    but are never NaN. *)
Theorem system_has_no_nan (s d : Corners) (h : heap) :
  any_nan s d = false ->
  setup_system 4 0 s d frame = Some h ->
  (forall r c, r < 8 -> c < 8 -> isnan (h (A_cell pA r c)) = false) /\
  (forall r, r < 8 -> isnan (h (v_cell pb r)) = false).
Proof.
  intros Hn Hs.
  assert (Hinf : forall k, k < 4 -> corner_inf k s d = false).
  { intros k Hk. destruct (corner_inf k s d) eqn:E; [|reflexivity].
    assert (Hnone : setup_system 4 0 s d frame = None)
      by (apply setup_system_None; exists k; split; [lia | assumption]).
    congruence. }
  pose proof (corner_finite 0 s d ltac:(lia) Hn (Hinf 0 ltac:(lia))) as (F0 & F1 & F2 & F3).
  pose proof (corner_finite 1 s d ltac:(lia) Hn (Hinf 1 ltac:(lia))) as (F4 & F5 & F6 & F7).
  pose proof (corner_finite 2 s d ltac:(lia) Hn (Hinf 2 ltac:(lia))) as (F8 & F9 & F10 & F11).
  pose proof (corner_finite 3 s d ltac:(lia) Hn (Hinf 3 ltac:(lia))) as (F12 & F13 & F14 & F15).
  rewrite !setup_system_step in Hs.
  rewrite !Hinf in Hs by lia.
  cbn [setup_system] in Hs. injection Hs as <-.
  assert (Hmul : forall a b, is_finite a = true -> is_finite b = true ->
                             isnan (mul (neg a) b) = false).
  { intros a b Ha Hb. apply mul_finite_not_nan; [rewrite neg_finite|]; assumption. }
  split.
  - intros r c Hr Hc.
    do 8 (destruct r as [|r]; [do 8 (destruct c as [|c];
      [cbv [write_rows store A_cell v_cell pA pb frame Nat.eqb Nat.add Nat.mul];
       first [reflexivity | apply is_finite_not_nan; assumption
             | apply Hmul; assumption] |]); lia |]).
    lia.
  - intros r Hr.
    do 8 (destruct r as [|r];
      [cbv [write_rows store A_cell v_cell pA pb frame Nat.eqb Nat.add Nat.mul];
       apply is_finite_not_nan; assumption |]).
    lia.
Qed.

Lemma system_has_no_nan_witness :
  isnan (system_of (square huge) (square huge) (A_cell pA 2 6)) = false /\
  isinf (system_of (square huge) (square huge) (A_cell pA 2 6)) = true.
Proof.
  split; [|reflexivity].
  apply (proj1 (system_has_no_nan (square huge) (square huge)
                  (system_of (square huge) (square huge)) eq_refl eq_refl));
    lia.
Defined.

Lemma solution_ok_false (cnt : nat) :
  forall i h,
    solution_ok cnt i h = false ->
    exists k, i <= k < i + cnt /\
      (isnan (h (v_cell px k)) = true \/ isinf (h (v_cell px k)) = true \/
       gt (fabs (h (v_cell px k))) bound_1e6 = true).
Proof.
  induction cnt as [|c IH]; intros i h H; [discriminate|].
  rewrite solution_ok_step in H.
  destruct (isnan (h (v_cell px i))) eqn:E1; [exists i; split; [lia | auto]|].
  destruct (isinf (h (v_cell px i))) eqn:E2; [exists i; split; [lia | auto]|].
  destruct (gt (fabs (h (v_cell px i))) bound_1e6) eqn:E3; [exists i; split; [lia | auto]|].
  cbn [orb] in H. apply IH in H as (k & Hk & Hbad).
  exists k. split; [lia | assumption].
Qed.

(** X7. The final validation of lines 255-265 can never fire: a solution
    that passes the loop of lines 233-238 assembles into a matrix whose
    nine entries are neither NaN nor infinite. *)
Theorem final_validation_never_fires (h : heap) :
  solution_ok 8 0 h = true -> result_invalid (assemble h) = false.
Proof.
  intros H. pose proof (solution_ok_spec 8 0 h H) as Hx.
  unfold result_invalid, assemble.
  cbn [m00 m01 m02 m10 m11 m12 m20 m21 m22].
  destruct (Hx 0) as (N0 & I0 & _); [lia|].
  destruct (Hx 1) as (N1 & I1 & _); [lia|].
  destruct (Hx 2) as (N2 & I2 & _); [lia|].
  destruct (Hx 3) as (N3 & I3 & _); [lia|].
  destruct (Hx 4) as (N4 & I4 & _); [lia|].
  destruct (Hx 5) as (N5 & I5 & _); [lia|].
  destruct (Hx 6) as (N6 & I6 & _); [lia|].
  destruct (Hx 7) as (N7 & I7 & _); [lia|].
  rewrite N0, N1, N2, N3, N4, N5, N6, N7, I0, I1, I2, I3, I4, I5, I6, I7.
  reflexivity.
Qed.

Lemma final_validation_never_fires_witness :
  result_invalid
    (assemble (fst (solve_linear_system (system_of unit_square double_square) pA pb px)))
  = false.
Proof.
  apply (final_validation_never_fires
           (fst (solve_linear_system (system_of unit_square double_square) pA pb px))).
  vm_compute. reflexivity.
Defined.

(** X8. After a successful solve the NaN and infinity tests of the loop
    of lines 233-238 are redundant: the loop rejects the solution exactly
    when some [|x[i]|] exceeds 1e6. *)
Theorem only_magnitude_rejects (h : heap) (pA' pb' : nat) :
  snd (solve_linear_system h pA' pb' px) = 1%Z ->
  (solution_ok 8 0 (fst (solve_linear_system h pA' pb' px)) = false <->
   exists i, i < 8 /\
     gt (fabs (fst (solve_linear_system h pA' pb' px) (v_cell px i))) bound_1e6 = true).
Proof.
  intros Hok.
  assert (Hfin : forall i, i < 8 ->
            is_finite (fst (solve_linear_system h pA' pb' px) (v_cell px i)) = true).
  { revert Hok. rewrite solve_linear_system_ok, solve_linear_system_heap.
    unfold solve_status.
    destruct (forward_elim n 0 (init_aug h pA' pb')) as [aug|]; [|discriminate].
    intros H i Hi. apply back_subst_finite; [|assumption].
    destruct (snd (back_subst n aug px h)); [discriminate | reflexivity]. }
  split.
  - intros H. apply solution_ok_false in H as (k & Hk & Hbad).
    exists k. split; [lia|].
    pose proof (Hfin k ltac:(lia)) as Hf.
    destruct Hbad as [Hb | [Hb | Hb]]; [| |assumption];
      destruct (fst (solve_linear_system h pA' pb' px) (v_cell px k));
      simpl in *; congruence.
  - intros (i & Hi & Hg).
    destruct (solution_ok 8 0 _) eqn:E; [|reflexivity].
    destruct (solution_ok_spec 8 0 _ E i) as (_ & _ & Hng); [lia|].
    congruence.
Qed.

Lemma only_magnitude_rejects_witness :
  solution_ok 8 0
    (fst (solve_linear_system (system_of unit_square (square huge)) pA pb px)) = false <->
  exists i, i < 8 /\
    gt (fabs (fst (solve_linear_system (system_of unit_square (square huge)) pA pb px)
                (v_cell px i))) bound_1e6 = true.
Proof.
  apply (only_magnitude_rejects (system_of unit_square (square huge)) pA pb).
  vm_compute. reflexivity.
Defined.

End BuilderFacts.

(** ** Properties of the point normalisation *)

Section NormalizeFacts.

Lemma div_positive_sign (m1 : positive) (e1 : Z) (m2 : positive) (e2 : Z) :
  isnan (div (S754_finite false m1 e1) (S754_finite false m2 e2)) = false /\
  is_negative (div (S754_finite false m1 e1) (S754_finite false m2 e2)) = false.
Proof.
  unfold div. cbn [SFdiv].
  unfold SFdiv_core_binary.
  set (e' := Z.min _ _).
  set (m' := match (e1 - e2 - e')%Z with
             | Z0 => Zpos m1
             | Zpos _ => Z.shiftl (Zpos m1) (e1 - e2 - e')
             | Zneg _ => 0%Z
             end).
  assert (Hm : (0 <= m')%Z).
  { unfold m'. destruct (e1 - e2 - e')%Z; try lia.
    apply Z.shiftl_nonneg. lia. }
  pose proof (Z.div_pos m' (Zpos m2) Hm ltac:(lia)) as Hq.
  unfold Z.div in Hq.
  destruct (Z.div_eucl m' (Zpos m2)) as [q r].
  cbn [xorb]. apply binary_round_aux_sign. exact Hq.
Qed.

Lemma gt_epsilon_positive (a : double) :
  gt a epsilon = true ->
  a = S754_infinity false \/ exists m e, a = S754_finite false m e.
Proof.
  unfold gt, SFltb, epsilon.
  destruct a as [s|s| |s m e]; simpl; try discriminate.
  - destruct s; [discriminate | left; reflexivity].
  - destruct s; [discriminate | right; exists m, e; reflexivity].
Qed.

Lemma scale_for_sign (avg_dist : double) :
  isnan (scale_for avg_dist) = false /\ is_negative (scale_for avg_dist) = false.
Proof.
  unfold scale_for.
  destruct (gt avg_dist epsilon) eqn:E; [|split; reflexivity].
  apply gt_epsilon_positive in E as [-> | (m & e & ->)].
  - split; reflexivity.
  - change (sqrt two) with (S754_finite false 6369051672525773 (-52)).
    apply div_positive_sign.
Qed.

(** NaN is absorbing. *)
Lemma add_nan_l b : add S754_nan b = S754_nan. Proof. reflexivity. Qed.
Lemma add_nan_r a : add a S754_nan = S754_nan. Proof. destruct a; reflexivity. Qed.
Lemma sub_nan_l b : sub S754_nan b = S754_nan. Proof. reflexivity. Qed.
Lemma sub_nan_r a : sub a S754_nan = S754_nan. Proof. destruct a; reflexivity. Qed.
Lemma mul_nan_l b : mul S754_nan b = S754_nan. Proof. reflexivity. Qed.
Lemma mul_nan_r a : mul a S754_nan = S754_nan. Proof. destruct a; reflexivity. Qed.
Lemma div_nan_l b : div S754_nan b = S754_nan. Proof. reflexivity. Qed.
Lemma sqrt_nan : sqrt S754_nan = S754_nan. Proof. reflexivity. Qed.

Lemma isnan_eq (a : double) : isnan a = true -> a = S754_nan.
Proof. destruct a; simpl; congruence. Qed.

Lemma centroid_eq (h : heap) (points : nat) :
  centroid h points =
  (div (add (add (add (add zero (h (x_cell points 0))) (h (x_cell points 1)))
                 (h (x_cell points 2))) (h (x_cell points 3))) four,
   div (add (add (add (add zero (h (y_cell points 0))) (h (y_cell points 1)))
                 (h (y_cell points 2))) (h (y_cell points 3))) four).
Proof. reflexivity. Qed.

Lemma sum_distances_nan_x (h : heap) (points : nat) (mean_y : double) :
  sum_distances h points S754_nan mean_y = S754_nan.
Proof.
  unfold sum_distances. cbn [for_loop].
  rewrite ?sub_nan_r, ?mul_nan_l, ?add_nan_l, ?sqrt_nan, ?add_nan_r. reflexivity.
Qed.

Lemma sum_distances_nan_y (h : heap) (points : nat) (mean_x : double) :
  sum_distances h points mean_x S754_nan = S754_nan.
Proof.
  unfold sum_distances. cbn [for_loop].
  rewrite ?sub_nan_r, ?mul_nan_l, ?add_nan_r, ?sqrt_nan, ?add_nan_r. reflexivity.
Qed.

Lemma centroid_nan_x (h : heap) (points i : nat) :
  i < 4 -> h (x_cell points i) = S754_nan -> fst (centroid h points) = S754_nan.
Proof.
  intros Hi Hn. rewrite centroid_eq. cbn [fst].
  destruct i as [|[|[|[|i]]]]; try lia; rewrite Hn;
    rewrite ?add_nan_r, ?add_nan_l, ?div_nan_l; reflexivity.
Qed.

Lemma centroid_nan_y (h : heap) (points i : nat) :
  i < 4 -> h (y_cell points i) = S754_nan -> snd (centroid h points) = S754_nan.
Proof.
  intros Hi Hn. rewrite centroid_eq. cbn [snd].
  destruct i as [|[|[|[|i]]]]; try lia; rewrite Hn;
    rewrite ?add_nan_r, ?add_nan_l, ?div_nan_l; reflexivity.
Qed.

Lemma average_distance_nan (h : heap) (points k : nat) :
  k < 8 -> isnan (h (points + k)) = true ->
  div (sum_distances h points (fst (centroid h points)) (snd (centroid h points))) four
  = S754_nan.
Proof.
  intros Hk Hn. apply isnan_eq in Hn.
  destruct (Nat.even k) eqn:E.
  - apply Nat.even_spec in E as (i & ->).
    rewrite (centroid_nan_x h points i) by (lia || exact Hn).
    rewrite sum_distances_nan_x. reflexivity.
  - assert (Ho : Nat.odd k = true) by (rewrite <- Nat.negb_even, E; reflexivity).
    apply Nat.odd_spec in Ho as (i & ->).
    rewrite (centroid_nan_y h points i) by (lia || (unfold y_cell; rewrite <- Nat.add_assoc; exact Hn)).
    rewrite sum_distances_nan_y. reflexivity.
Qed.

Lemma final_loop_frame (points scale tx ty : nat) (h : heap) (a : nat) :
  ~ point_cell points a ->
  for_loop 4 0
    (fun i h =>
       let h := store h (x_cell points i)
                  (mul (add (h (x_cell points i)) (h tx)) (h scale)) in
       store h (y_cell points i)
         (mul (add (h (y_cell points i)) (h ty)) (h scale)))
    h a = h a.
Proof.
  intros Ha.
  pose (P := fun (_ : nat) (h' : heap) => h' a = h a).
  apply (for_loop_inv P); unfold P; [reflexivity|].
  intros j t Hj Ht. cbv zeta.
  rewrite !store_neq; [assumption | |];
    intros ->; apply Ha; exists j; split; try lia; auto.
Qed.

Lemma normalize_points_eq (h : heap) (points scale tx ty : nat) :
  normalize_points h points scale tx ty =
  for_loop 4 0
    (fun i h =>
       let h := store h (x_cell points i)
                  (mul (add (h (x_cell points i)) (h tx)) (h scale)) in
       store h (y_cell points i)
         (mul (add (h (y_cell points i)) (h ty)) (h scale)))
    (store
       (store
          (store h scale
             (scale_for
                (div (sum_distances h points (fst (centroid h points))
                        (snd (centroid h points))) four)))
          tx (neg (fst (centroid h points))))
       ty (neg (snd (centroid h points)))).
Proof.
  unfold normalize_points. destruct (centroid h points). reflexivity.
Qed.

(** X9. The normalisation writes the eight coordinates and the three
    outputs [*scale], [*tx], [*ty], and no other cell. *)
Theorem normalize_writes_outputs_only (h : heap) (points scale tx ty a : nat) :
  ~ point_cell points a -> a <> scale -> a <> tx -> a <> ty ->
  normalize_points h points scale tx ty a = h a.
Proof.
  intros Hp Hs Hx Hy. rewrite normalize_points_eq.
  rewrite final_loop_frame by assumption.
  rewrite !store_neq by assumption. reflexivity.
Qed.

Lemma point_cell_range (points a : nat) :
  point_cell points a -> points <= a < points + 8.
Proof.
  intros (i & Hi & [-> | ->]); unfold x_cell, y_cell; lia.
Qed.

Lemma normalize_writes_outputs_only_witness :
  normalize_points square_points 0 8 9 10 11 = square_points 11.
Proof.
  apply (normalize_writes_outputs_only square_points 0 8 9 10 11); try lia.
  intros H. apply point_cell_range in H. lia.
Defined.

(** The value of [*scale] after the call, when the cell is not shared. *)
Lemma normalize_scale (h : heap) (points scale tx ty : nat) :
  ~ point_cell points scale -> scale <> tx -> scale <> ty ->
  normalize_points h points scale tx ty scale =
  scale_for (div (sum_distances h points (fst (centroid h points))
                    (snd (centroid h points))) four).
Proof.
  intros Hp Hx Hy. rewrite normalize_points_eq.
  rewrite final_loop_frame by assumption.
  rewrite !store_neq by assumption. apply store_eq.
Qed.

(** X10. A NaN among the eight coordinates makes the average distance
    NaN, the test [avg_dist > 1e-10] false, and [*scale] exactly 1.0
    (given that [scale] is a cell of its own). *)
Theorem normalize_nan_scale_one (h : heap) (points scale tx ty k : nat) :
  ~ point_cell points scale -> scale <> tx -> scale <> ty ->
  k < 8 -> isnan (h (points + k)) = true ->
  normalize_points h points scale tx ty scale = one.
Proof.
  intros Hp Hx Hy Hk Hn.
  rewrite normalize_scale by assumption.
  rewrite (average_distance_nan h points k Hk Hn). reflexivity.
Qed.

Lemma normalize_nan_scale_one_witness :
  normalize_points (store square_points 3 S754_nan) 0 8 9 10 8 = one.
Proof.
  apply (normalize_nan_scale_one (store square_points 3 S754_nan) 0 8 9 10 3);
    try lia; try reflexivity.
  intros H. apply point_cell_range in H. lia.
Defined.

(** X11. Whatever the points, [*scale] is never NaN and never negative
    after the call (given that [scale] is a cell of its own): it is 1.0,
    or the quotient of [sqrt(2.0)] by a positive average distance. *)
Theorem normalize_scale_sign (h : heap) (points scale tx ty : nat) :
  ~ point_cell points scale -> scale <> tx -> scale <> ty ->
  isnan (normalize_points h points scale tx ty scale) = false /\
  is_negative (normalize_points h points scale tx ty scale) = false.
Proof.
  intros Hp Hx Hy. rewrite normalize_scale by assumption.
  apply scale_for_sign.
Qed.

Lemma normalize_scale_sign_witness :
  isnan (normalize_points square_points 0 8 9 10 8) = false /\
  is_negative (normalize_points square_points 0 8 9 10 8) = false.
Proof.
  apply (normalize_scale_sign square_points 0 8 9 10); try lia.
  intros H. apply point_cell_range in H. lia.
Defined.

End NormalizeFacts.
